(** * GeoLoc.js: position resolution with provider fallback and a cache

    A shallow embedding of [src/GeoLoc.js] (the edition that has both
    [getPosition] and [getPositionParallel]) and the properties of its two
    resolution strategies.

    Layout:
    - [JS]      the fragment of the language's values the code relies on:
                numbers with NaN, [Number(string)], number to string,
                [split], [join], truthiness, [typeof], property access;
    - [Run]     the effect monad of the embedding: a world (array heap,
                localStorage, clock, [uidCounter], the [requests] object), a
                trace of the calls the code makes to its collaborators, and
                exceptions;
    - [GeoLoc]  the code itself, function by function;
    - drivers that feed provider callbacks to the code, then the theorems. *)

From Stdlib Require Import ZArith String Ascii List Lia DecimalString DecimalN.
From stdpp Require Import base option list strings gmap.

Local Open Scope string_scope.
Local Open Scope Z_scope.

(* ===================================================================== *)
(** ** The fragment of JavaScript under the code *)
(* ===================================================================== *)

Module JS.

(** A number is NaN, an infinity or a finite value [m * 10^e].  Finite values
    are kept exact: the rounding of binary64 is not part of the model, and the
    sign of zero is dropped.  Comparison, subtraction and the propagation of
    NaN, on which the control flow of the resolver depends, are those of the
    language. *)
Inductive number :=
| NaN
| Infinity (negative : bool)
| Finite (m e : Z).

Definition align (m1 e1 m2 e2 : Z) : Z * Z :=
  let e := Z.min e1 e2 in (m1 * 10 ^ (e1 - e), m2 * 10 ^ (e2 - e)).

(** [x - y] *)
Definition sub (x y : number) : number :=
  match x, y with
  | NaN, _ | _, NaN => NaN
  | Infinity a, Infinity b => if Bool.eqb a b then NaN else Infinity a
  | Infinity a, Finite _ _ => Infinity a
  | Finite _ _, Infinity b => Infinity (negb b)
  | Finite m1 e1, Finite m2 e2 =>
      let '(a, b) := align m1 e1 m2 e2 in Finite (a - b) (Z.min e1 e2)
  end.

(** [x <= y]: false as soon as one side is NaN *)
Definition le (x y : number) : bool :=
  match x, y with
  | NaN, _ | _, NaN => false
  | Infinity a, Infinity b => implb b a
  | Infinity a, Finite _ _ => a
  | Finite _ _, Infinity b => negb b
  | Finite m1 e1, Finite m2 e2 =>
      let '(a, b) := align m1 e1 m2 e2 in a <=? b
  end.

(** [x > y] *)
Definition gt (x y : number) : bool :=
  match x, y with
  | NaN, _ | _, NaN => false
  | _, _ => negb (le x y)
  end.

Definition of_Z (z : Z) : number := Finite z 0.

(** *** Strings *)

(** [s.split(c)] for a one-character separator *)
Fixpoint split (sep : ascii) (s : string) : list string :=
  match s with
  | EmptyString => [EmptyString]
  | String c r =>
      if Ascii.eqb c sep then EmptyString :: split sep r
      else match split sep r with
           | [] => [String c EmptyString]
           | h :: t => String c h :: t
           end
  end.

(** [a.join(sep)] on an array of strings *)
Definition join (sep : string) (a : list string) : string := String.concat sep a.

Definition is_white (c : ascii) : bool :=
  match c with
  | " "%char | "009"%char | "010"%char | "011"%char | "012"%char | "013"%char => true
  | _ => false
  end.

Fixpoint trim_left (s : string) : string :=
  match s with
  | String c r => if is_white c then trim_left r else s
  | EmptyString => EmptyString
  end.

Fixpoint rev_string (acc s : string) : string :=
  match s with
  | EmptyString => acc
  | String c r => rev_string (String c acc) r
  end.

Definition trim (s : string) : string :=
  rev_string "" (trim_left (rev_string "" (trim_left s))).

Definition digit_of (base : Z) (c : ascii) : option Z :=
  let n := Z.of_N (N_of_ascii c) in
  let d :=
    if (48 <=? n) && (n <=? 57) then n - 48
    else if (97 <=? n) && (n <=? 102) then n - 87
    else if (65 <=? n) && (n <=? 70) then n - 55
    else 99 in
  if d <? base then Some d else None.

(** Reads the longest prefix of digits: its value on top of [acc], how many
    digits it has, and what follows. *)
Fixpoint read_digits (base : Z) (s : string) (acc : Z) (count : Z) : Z * Z * string :=
  match s with
  | String c r =>
      match digit_of base c with
      | Some d => read_digits base r (acc * base + d) (count + 1)
      | None => (acc, count, s)
      end
  | EmptyString => (acc, count, s)
  end.

(** ExponentPart, or nothing: [None] when what is left is neither *)
Definition read_exponent (s : string) : option Z :=
  match s with
  | EmptyString => Some 0
  | String c r =>
      if Ascii.eqb c "e" || Ascii.eqb c "E" then
        let '(neg, r) :=
          match r with
          | String "-" r' => (true, r')
          | String "+" r' => (false, r')
          | _ => (false, r)
          end in
        match read_digits 10 r 0 0 with
        | (x, n, EmptyString) => if 0 <? n then Some (if neg then - x else x) else None
        | _ => None
        end
      else None
  end.

(** StrUnsignedDecimalLiteral *)
Definition read_unsigned (s : string) : number :=
  if String.eqb s "Infinity" then Infinity false
  else
    let '(ip, ni, r1) := read_digits 10 s 0 0 in
    let '(m, nf, r2) :=
      match r1 with
      | String "." r => read_digits 10 r ip 0
      | _ => (ip, 0, r1)
      end in
    if 0 <? ni + nf then
      match read_exponent r2 with
      | Some x => Finite m (x - nf)
      | None => NaN
      end
    else NaN.

Definition negate (x : number) : number :=
  match x with
  | NaN => NaN
  | Infinity b => Infinity (negb b)
  | Finite m e => Finite (- m) e
  end.

Definition read_radix (base : Z) (s : string) : number :=
  match read_digits base s 0 0 with
  | (x, n, EmptyString) => if 0 <? n then Finite x 0 else NaN
  | _ => NaN
  end.

(** [Number(s)] on a string: blank gives 0, a StrNumericLiteral its value,
    anything else NaN. *)
Definition Number (s : string) : number :=
  match trim s with
  | EmptyString => Finite 0 0
  | String "0" (String "x" r) | String "0" (String "X" r) => read_radix 16 r
  | String "0" (String "o" r) | String "0" (String "O" r) => read_radix 8 r
  | String "0" (String "b" r) | String "0" (String "B" r) => read_radix 2 r
  | String "-" r => negate (read_unsigned r)
  | String "+" r => read_unsigned r
  | t => read_unsigned t
  end.

(** [Number(a[i])]: an index past the end reads [undefined], which converts
    to NaN. *)
Definition Number_at (a : list string) (i : nat) : number :=
  match a !! i with
  | Some s => Number s
  | None => NaN
  end.

(** *** Number to string *)

Fixpoint zeros (n : nat) : string :=
  match n with
  | O => ""
  | S k => String "0" (zeros k)
  end.

(** Drops the leading zeros of a string, counting them: used on the reversed
    digits of a mantissa to drop its trailing zeros. *)
Fixpoint drop_zeros (s : string) (dropped : Z) : string * Z :=
  match s with
  | String "0" r => drop_zeros r (dropped + 1)
  | _ => (s, dropped)
  end.

Definition digits_of_positive (m : Z) : string :=
  NilZero.string_of_uint (N.to_uint (Z.to_N m)).

(** Number::toString in radix 10 for a positive finite value: with the [k]
    digits of the shortest mantissa and [n] the position of the decimal
    point, plain digits, a decimal fraction or the exponent form. *)
Definition positive_to_string (m e : Z) : string :=
  let '(rds, z) := drop_zeros (rev_string "" (digits_of_positive m)) 0 in
  let ds := rev_string "" rds in
  let k := Z.of_nat (String.length ds) in
  let n := e + z + k in
  if (k <=? n) && (n <=? 21) then ds ++ zeros (Z.to_nat (n - k))
  else if (0 <? n) && (n <=? 21) then
    substring 0 (Z.to_nat n) ds ++ "." ++ substring (Z.to_nat n) (Z.to_nat (k - n)) ds
  else if (-6 <? n) && (n <=? 0) then "0." ++ zeros (Z.to_nat (- n)) ++ ds
  else
    let x := n - 1 in
    let sign := if x <? 0 then "-" else "+" in
    let mant := if k =? 1 then ds
                else substring 0 1 ds ++ "." ++ substring 1 (Z.to_nat (k - 1)) ds in
    mant ++ "e" ++ sign ++ digits_of_positive (Z.abs x).

Definition number_to_string (x : number) : string :=
  match x with
  | NaN => "NaN"
  | Infinity false => "Infinity"
  | Infinity true => "-Infinity"
  | Finite m e =>
      if m =? 0 then "0"
      else if m <? 0 then "-" ++ positive_to_string (- m) e
      else positive_to_string m e
  end.

(** *** Values *)

(** The values that reach the code: primitives, plain data objects (their own
    properties, in order) and Error objects. *)
#[warnings="-register-all"]
Inductive val :=
| VUndefined
| VNull
| VBool (b : bool)
| VNum (n : number)
| VStr (s : string)
| VObject (props : list (string * val))
| VError (name message : string).

(** ToBoolean *)
Definition truthy (v : val) : bool :=
  match v with
  | VUndefined | VNull => false
  | VBool b => b
  | VNum NaN => false
  | VNum (Infinity _) => true
  | VNum (Finite m _) => negb (m =? 0)
  | VStr s => negb (String.eqb s "")
  | VObject _ | VError _ _ => true
  end.

Definition typeof (v : val) : string :=
  match v with
  | VUndefined => "undefined"
  | VNull => "object"
  | VBool _ => "boolean"
  | VNum _ => "number"
  | VStr _ => "string"
  | VObject _ | VError _ _ => "object"
  end.

Fixpoint assoc (k : string) (props : list (string * val)) : val :=
  match props with
  | [] => VUndefined
  | (k', v) :: r => if String.eqb k k' then v else assoc k r
  end.

(** What a statement does: it completes normally with a value, or it throws. *)
Inductive completion (A : Type) :=
| Normal (a : A)
| Throw (e : val).
Arguments Normal {A} a.
Arguments Throw {A} e.

(** [v.k] for a name [k] that is neither an index nor [length]: a TypeError
    on [undefined] and [null] (with a message of the model's, engines differ),
    the property or [undefined] elsewhere. *)
Definition get (v : val) (k : string) : completion val :=
  match v with
  | VUndefined | VNull => Throw (VError "TypeError" ("Cannot read property " ++ k))
  | VObject props => Normal (assoc k props)
  | VError name message =>
      Normal (if String.eqb k "name" then VStr name
              else if String.eqb k "message" then VStr message
              else VUndefined)
  | VBool _ | VNum _ | VStr _ => Normal VUndefined
  end.

Definition ToString (v : val) : string :=
  match v with
  | VUndefined => "undefined"
  | VNull => "null"
  | VBool true => "true"
  | VBool false => "false"
  | VNum n => number_to_string n
  | VStr s => s
  | VObject _ => "[object Object]"
  | VError name message => name ++ ": " ++ message
  end.

(** [a.join(sep)] on an array of values: [undefined] and [null] give the empty
    string, every other element its ToString. *)
Definition join_values (sep : string) (a : list val) : string :=
  join sep (map (fun v => match v with
                          | VUndefined | VNull => ""
                          | _ => ToString v
                          end) a).

End JS.

(* ===================================================================== *)
(** ** The world of one call, and the monad of its effects *)
(* ===================================================================== *)

Module Run.
Import JS.

(** Providers are collaborators supplied by the caller: the code only calls
    their [getPosition] and the [abort] of the handles they return.  A
    provider is known here by its name. *)
Definition provider := string.

(** Arrays of providers are shared, mutable objects: they live in a heap. *)
Definition loc := positive.

(** The two function expressions the code hands to providers, each with what
    it closes over: the sequential one holds the working queue [providers]
    and [providerTimeout]; the parallel one holds [req], known here by the
    [_GeoLoc_id] that [setData] gives it.  Both also close over [cb]. *)
Inductive callback :=
| SequentialCallback (providers : loc) (providerTimeout : number)
| ParallelCallback (req_GeoLoc_id : nat).

(** The calls the code makes to its collaborators, and the callbacks it
    receives from providers, in the order they happen. *)
Inductive effect :=
| ProviderGetPosition (p : provider) (callback : callback) (timeout : number)
    (* [provider.getPosition(callback, { timeout: providerTimeout })] *)
| HandleAbort (id : nat) (p : provider)
    (* [requests[id].abort()], the handle being the one [p] returned *)
| StorageSetItem (key item : string)
    (* [localStorage.setItem(key, item)] *)
| Completion (err pos : val)
    (* [cb(err, pos)], the completion callback of the call *)
| ProviderCallback (err data : val).
    (* a provider invoked the callback it was given *)

(** The state the code works in.  A location that the heap does not hold
    reads as the empty array; the arrays a call is given are in the heap. *)
Record world := World {
  heap : gmap loc (list provider);
  localStorage : gmap string string;
  clock : Z;                         (* what [Date.now()] returns *)
  defaultProviders : loc;            (* [var defaultProviders] *)
  uidCounter : nat;                  (* [var uidCounter] *)
  requests : list (nat * provider);  (* [var requests] of the parallel call:
                                        ids to handles, in for-in order *)
  trace : list effect
}.

(** A piece of code: it changes the world and completes, normally or by
    throwing. *)
Definition M (A : Type) : Type := world -> world * completion A.

Definition ret {A} (a : A) : M A := fun w => (w, Normal a).

Definition throw {A} (e : val) : M A := fun w => (w, Throw e).

Definition bind {A B} (m : M A) (k : A -> M B) : M B :=
  fun w => match m w with
           | (w', Normal a) => k a w'
           | (w', Throw e) => (w', Throw e)
           end.

Definition lift {A} (c : completion A) : M A := fun w => (w, c).

Definition gets {A} (f : world -> A) : M A := fun w => (w, Normal (f w)).

Definition modify (f : world -> world) : M unit := fun w => (f w, Normal tt).

Definition emit (e : effect) : M unit :=
  modify (fun w => World (heap w) (localStorage w) (clock w) (defaultProviders w)
                         (uidCounter w) (requests w) (trace w ++ [e])).

Definition set_heap (h : gmap loc (list provider)) : M unit :=
  modify (fun w => World h (localStorage w) (clock w) (defaultProviders w)
                         (uidCounter w) (requests w) (trace w)).

Definition set_requests (r : list (nat * provider)) : M unit :=
  modify (fun w => World (heap w) (localStorage w) (clock w) (defaultProviders w)
                         (uidCounter w) r (trace w)).

Definition set_clock (t : Z) : M unit :=
  modify (fun w => World (heap w) (localStorage w) t (defaultProviders w)
                         (uidCounter w) (requests w) (trace w)).

Definition set_defaultProviders (l : loc) : M unit :=
  modify (fun w => World (heap w) (localStorage w) (clock w) l
                         (uidCounter w) (requests w) (trace w)).

Definition set_uidCounter (n : nat) : M unit :=
  modify (fun w => World (heap w) (localStorage w) (clock w) (defaultProviders w)
                         n (requests w) (trace w)).

Definition set_localStorage (s : gmap string string) : M unit :=
  modify (fun w => World (heap w) s (clock w) (defaultProviders w)
                         (uidCounter w) (requests w) (trace w)).

Fixpoint for_each {A} (l : list A) (body : A -> M unit) : M unit :=
  match l with
  | [] => ret tt
  | a :: r => bind (body a) (fun _ => for_each r body)
  end.

End Run.

(** stdpp's notations [x ← m; k] and [m;; k] are those of this monad. *)
#[global] Instance M_ret : MRet Run.M := @Run.ret.
#[global] Instance M_bind : MBind Run.M := fun A B k m => Run.bind m k.

(* ===================================================================== *)
(** ** GeoLoc.js *)
(* ===================================================================== *)

(** The code runs on one thread, to completion.  What it calls and does not
    define is taken as follows: [cb], [abort] and the body of a provider's
    [getPosition] return without throwing and without calling back into the
    code; a provider invokes its callback later, in a turn of its own, when
    the call that handed it out has returned. *)

Module GeoLocJs.
Import JS Run.

(** *** The collaborators: arrays, localStorage, the clock, [cb] *)

(** [a.slice(0)]: a new array with the elements of [a] *)
Definition slice0 (a : loc) : M loc :=
  h ← gets heap;
  let l := fresh (dom h) in
  set_heap (<[l := h !!! a]> h);; ret l.

(** [a.shift()]: removes and returns the first element, [undefined] (here
    [None]) on an empty array *)
Definition shift (a : loc) : M (option provider) :=
  h ← gets heap;
  match h !!! a with
  | [] => ret None
  | p :: r => set_heap (<[a := r]> h);; ret (Some p)
  end.

(** [a.length] *)
Definition length_of (a : loc) : M nat :=
  h ← gets heap; ret (length (h !!! a)).

(** [localStorage.getItem(key)]: [null] (here [None]) when there is no item *)
Definition getItem (key : string) : M (option string) :=
  s ← gets localStorage; ret (s !! key).

Definition setItem (key item : string) : M unit :=
  s ← gets localStorage;
  set_localStorage (<[key := item]> s);;
  emit (StorageSetItem key item).

Definition Date_now : M number :=
  t ← gets clock; ret (of_Z t).

(** The completion callback is the caller's: calling it is recorded, and it
    returns. *)
Definition cb (err pos : val) : M unit := emit (Completion err pos).

(** *** Configuration *)

(** The [options] argument: each property is there or not. *)
Record options := Options {
  opt_providerTimeout : option number;
  opt_maximumAge : option number;
  opt_providers : option loc
}.

Definition no_options : options := Options None None None.

Record GeoLoc := Build_GeoLoc {
  providerTimeout : number;
  maximumAge : number;
  providers : loc
}.

(** [options.x || this.x] on numbers: the option's value unless it is missing,
    0 or NaN *)
Definition number_or (o : option number) (d : number) : number :=
  match o with
  | Some n => if truthy (VNum n) then n else d
  | None => d
  end.

(** [options.providers || this.providers]: an array is always truthy *)
Definition array_or (o : option loc) (d : loc) : loc :=
  match o with
  | Some l => l
  | None => d
  end.

(** [new GeoLoc(options)], over the prototype's [providerTimeout: 10000] and
    [maximumAge: 1000 * 60 * 60 * 24] *)
Definition new_GeoLoc (options : options) : M GeoLoc :=
  d ← gets defaultProviders;
  ret (Build_GeoLoc (number_or (opt_providerTimeout options) (of_Z 10000))
                     (number_or (opt_maximumAge options) (of_Z (1000 * 60 * 60 * 24)))
                     (array_or (opt_providers options) d)).

Definition setDefaultProviders (providers : loc) : M unit :=
  set_defaultProviders providers.

(** [GeoLoc.use(providers)] *)
Definition static_use (providers : loc) : M GeoLoc :=
  new_GeoLoc (Options None None (Some providers)).

(** [GeoLoc.prototype.use] *)
Definition use (this : GeoLoc) (providers : loc) : GeoLoc :=
  Build_GeoLoc (providerTimeout this) (maximumAge this) providers.

(** The first argument of [getPosition] and [getPositionParallel]: the
    options, or the callback itself ([typeof options == 'function']), in which
    case [options = {}]. *)
Inductive first_argument :=
| TheOptions (o : options)
| TheCallback.

Definition options_of (a : first_argument) : options :=
  match a with
  | TheOptions o => o
  | TheCallback => no_options
  end.

(** *** The cache *)

Definition _getPositionFromLocalStorage (maximumAge : number) : M val :=
  storedData ← getItem "_GeoLocData";
  match storedData with
  | Some (String c r as storedData) =>
      let storedData := split "," storedData in
      let timeStamp := Number_at storedData 2 in
      now ← Date_now;
      if le (sub now timeStamp) maximumAge then
        ret (VObject [("latitude", VNum (Number_at storedData 0));
                       ("longitude", VNum (Number_at storedData 1))])
      else ret VNull
  | _ => ret VNull
  end.

(** [typeof data.latitude != 'number' || typeof data.longitude != 'number'] *)
Definition incorrect_data (data : val) : M bool :=
  latitude ← lift (get data "latitude");
  if negb (String.eqb (typeof latitude) "number") then ret true
  else
    longitude ← lift (get data "longitude");
    ret (negb (String.eqb (typeof longitude) "number")).

(** [localStorage.setItem('_GeoLocData',
      [data.latitude, data.longitude, Date.now()].join(','))] *)
Definition store_position (data : val) : M unit :=
  latitude ← lift (get data "latitude");
  longitude ← lift (get data "longitude");
  now ← Date_now;
  setItem "_GeoLocData" (join_values "," [latitude; longitude; VNum now]).

Definition Incorrect_data : val := VError "TypeError" "Incorrect data".

(** *** The sequential strategy *)

(** The function expression [getPosition(providers)] inside the method of the
    same name: takes the next provider off the queue and calls it.  On an
    empty queue [shift] gives [undefined], whose [getPosition] cannot be
    read. *)
Definition getPosition_next (providers : loc) (providerTimeout : number) : M unit :=
  provider ← shift providers;
  match provider with
  | Some p =>
      emit (ProviderGetPosition p (SequentialCallback providers providerTimeout)
                                providerTimeout)
  | None => throw (VError "TypeError" "Cannot read property getPosition")
  end.

(** The callback [function(err, data)] given to the provider *)
Definition getPosition_callback (providers : loc) (providerTimeout : number)
    (err data : val) : M unit :=
  if truthy err then
    n ← length_of providers;
    if negb (Nat.eqb n 0) then getPosition_next providers providerTimeout
    else cb err VNull
  else
    bad ← incorrect_data data;
    if (bad : bool) then
      n ← length_of providers;
      if negb (Nat.eqb n 0) then getPosition_next providers providerTimeout
      else cb Incorrect_data VNull
    else
      store_position data;;
      cb VNull data.

Definition getPosition (this : GeoLoc) (a : first_argument) : M unit :=
  let options := options_of a in
  pos ← _getPositionFromLocalStorage (number_or (opt_maximumAge options) (maximumAge this));
  if truthy pos then cb VNull pos
  else
    let providerTimeout := number_or (opt_providerTimeout options) (providerTimeout this) in
    let providers := array_or (opt_providers options) (GeoLocJs.providers this) in
    queue ← slice0 (GeoLocJs.providers this);
    getPosition_next queue providerTimeout.

(** [GeoLoc.getPosition(options, cb)] *)
Definition static_getPosition (a : first_argument) : M unit :=
  this ← new_GeoLoc no_options;
  getPosition this a.

(** *** The parallel strategy *)

(** [requests[id] = req]: integer keys are visited in ascending order by
    for-in, so the entries are kept sorted by id. *)
Fixpoint put_request (id : nat) (req : provider) (r : list (nat * provider))
    : list (nat * provider) :=
  match r with
  | [] => [(id, req)]
  | (i, q) :: t =>
      if Nat.ltb id i then (id, req) :: r
      else if Nat.eqb id i then (id, req) :: t
      else (i, q) :: put_request id req t
  end.

(** [delete requests[id]] *)
Definition delete_request (id : nat) : M unit :=
  r ← gets requests;
  set_requests (filter (fun e => fst e ≠ id) r).

Definition abortAllRequests : M unit :=
  r ← gets requests;
  for_each r (fun e => emit (HandleAbort (fst e) (snd e));; delete_request (fst e)).

Definition hasRequests : M bool :=
  r ← gets requests;
  ret (match r with [] => false | _ :: _ => true end).

(** The callback [function(err, data)] of [setData], for the request whose
    handle [req] got the id [id]: a provider calls it after [getPosition]
    returned, when [req] is bound. *)
Definition setData_callback (id : nat) (err data : val) : M unit :=
  delete_request id;;
  if truthy err then
    h ← hasRequests;
    if negb h then cb err VNull else ret tt
  else
    bad ← incorrect_data data;
    if (bad : bool) then
      h ← hasRequests;
      if negb h then cb Incorrect_data VNull else ret tt
    else
      abortAllRequests;;
      store_position data;;
      cb VNull data.

(** [setData(provider)]: the provider's [getPosition] returns the handle
    [req], which gets the next id and goes into [requests]. *)
Definition setData (providerTimeout : number) (provider : provider) : M unit :=
  n ← gets uidCounter;
  emit (ProviderGetPosition provider (ParallelCallback (S n)) providerTimeout);;
  set_uidCounter (S n);;
  r ← gets requests;
  set_requests (put_request (S n) provider r).

Definition getPositionParallel (this : GeoLoc) (a : first_argument) : M unit :=
  let options := options_of a in
  pos ← _getPositionFromLocalStorage (number_or (opt_maximumAge options) (maximumAge this));
  if truthy pos then cb VNull pos
  else
    let providerTimeout := number_or (opt_providerTimeout options) (providerTimeout this) in
    let providers := array_or (opt_providers options) (GeoLocJs.providers this) in
    set_requests [];;
    h ← gets heap;
    for_each (h !!! providers) (setData providerTimeout).

(** *** Providers calling back *)

(** A provider invokes the callback it was given. *)
Definition invoke (c : callback) (err data : val) : M unit :=
  emit (ProviderCallback err data);;
  match c with
  | SequentialCallback providers providerTimeout =>
      getPosition_callback providers providerTimeout err data
  | ParallelCallback id => setData_callback id err data
  end.

End GeoLocJs.


(* ===================================================================== *)
(** ** GeoLoc.js, the earlier edition *)
(* ===================================================================== *)

(** The source file holds a second, earlier edition of the module.  Its
    constructor, [setDefaultProviders] and [use] are those of the later
    edition.  It has no [getPositionParallel]; [getPosition] takes the
    callback only and reads the cache in line; the options go to the
    constructor, in the static [GeoLoc.getPosition].  The function expression
    [getPosition(providers)] and the callback given to providers are, word for
    word, those of the later edition. *)

Module GeoLocJs0.
Import JS Run GeoLocJs.

(** [GeoLoc.prototype.getPosition(cb)]; [answered] tells whether the cached
    position was handed over, after which the method returns. *)
Definition getPosition (this : GeoLoc) : M unit :=
  storedData ← getItem "_GeoLocData";
  answered ←
    match storedData with
    | Some (String c r as storedData) =>
        let storedData := split "," storedData in
        let timeStamp := Number_at storedData 2 in
        now ← Date_now;
        if le (sub now timeStamp) (maximumAge this) then
          cb VNull (VObject [("latitude", VNum (Number_at storedData 0));
                             ("longitude", VNum (Number_at storedData 1))]);;
          ret true
        else ret false
    | _ => ret false
    end;
  if (answered : bool) then ret tt
  else
    let providerTimeout := providerTimeout this in
    queue ← slice0 (providers this);
    getPosition_next queue providerTimeout.

(** [GeoLoc.getPosition(options, cb)] *)
Definition static_getPosition (a : first_argument) : M unit :=
  this ← new_GeoLoc (options_of a);
  getPosition this.

End GeoLocJs0.

(* ===================================================================== *)
(** ** Providers at work: drivers *)
(* ===================================================================== *)

Module Drive.
Import JS Run GeoLocJs.

(** What a provider passes to its callback, and when *)
Record reply := Reply {
  at_time : Z;
  reply_err : val;
  reply_data : val
}.

(** One turn of the event loop: at time [at_time r] a provider invokes the
    callback [c].  An exception of the callback goes back into the provider
    that called it; what the callback did before throwing stays done. *)
Definition deliver (c : callback) (r : reply) (w : world) : world :=
  fst ((set_clock (at_time r);; invoke c (reply_err r) (reply_data r)) w).

(** Providers that follow the protocol of the sequential strategy: each one
    called answers once, with [answer p].  The loop goes on as long as the
    last thing the code did was to call a provider; it stops at a completion
    or at an exception.  [None]: out of fuel. *)
Fixpoint serve (fuel : nat) (answer : provider -> reply) (w : world) : option world :=
  match last (trace w) with
  | Some (ProviderGetPosition p c _) =>
      match fuel with
      | O => None
      | S f => serve f answer (deliver c (answer p) w)
      end
  | _ => Some w
  end.

(** Any sequence of callback invocations, whether the providers follow the
    protocol or not. *)
Definition run (events : list (callback * reply)) (w : world) : world :=
  foldl (fun w e => deliver (fst e) (snd e) w) w events.

(** Providers that follow the protocol of the parallel strategy call back
    only for a request that is in flight: one that is in [requests], so that
    has not called back yet and has not been aborted. *)
Definition in_flight (w : world) (c : callback) : bool :=
  match c with
  | ParallelCallback id => bool_decide (id ∈ map fst (requests w))
  | SequentialCallback _ _ => false
  end.

Fixpoint abiding (events : list (callback * reply)) (w : world) : bool :=
  match events with
  | [] => true
  | e :: rest => in_flight w (fst e) && abiding rest (deliver (fst e) (snd e) w)
  end.

(** Starts a call in [w] and gives the world it leaves. *)
Definition start (call : M unit) (w : world) : world := fst (call w).

(** The cached record as a call finds it: the stored string, its time
    stamp, its age. *)
Definition stored (w : world) : option string := localStorage w !! "_GeoLocData".

Definition timestamp_of (s : string) : number := Number_at (split "," s) 2.

Definition age_of (w : world) (s : string) : number :=
  sub (of_Z (clock w)) (timestamp_of s).

Definition position_of (s : string) : val :=
  VObject [("latitude", VNum (Number_at (split "," s) 0));
           ("longitude", VNum (Number_at (split "," s) 1))].

(** [w] after the code has done [t] *)
Definition after (w : world) (t : list effect) : world :=
  World (heap w) (localStorage w) (clock w) (defaultProviders w)
        (uidCounter w) (requests w) (trace w ++ t).

(** The invocations of the completion callback, in order *)
Definition completions (t : list effect) : list (val * val) :=
  omap (fun e => match e with Completion err pos => Some (err, pos) | _ => None end) t.

(** The providers called, in order *)
Definition called (t : list effect) : list provider :=
  omap (fun e => match e with ProviderGetPosition p _ _ => Some p | _ => None end) t.

End Drive.

(* ===================================================================== *)
(** ** Properties *)
(* ===================================================================== *)

Import JS Run GeoLocJs Drive.
Local Open Scope list_scope.

(** *** The vocabulary of the properties *)

(** A result with a number for latitude and for longitude *)
Definition numeric (data : val) (latitude longitude : number) : Prop :=
  get data "latitude" = Normal (VNum latitude) /\
  get data "longitude" = Normal (VNum longitude).

(** A result whose latitude or longitude is there to read and is not a
    number *)
Definition malformed (data : val) : bool :=
  match get data "latitude", get data "longitude" with
  | Normal latitude, Normal longitude =>
      negb (String.eqb (typeof latitude) "number")
      || negb (String.eqb (typeof longitude) "number")
  | _, _ => false
  end.

(** The world after [store_position data; cb(null, data)] *)
Definition stored_and_completed (w : world) (data : val) (latitude longitude : number)
    (aborted : list effect) (r : list (nat * provider)) : world :=
  let item := join_values "," [VNum latitude; VNum longitude; VNum (of_Z (clock w))] in
  World (heap w) (<["_GeoLocData" := item]> (localStorage w)) (clock w)
        (defaultProviders w) (uidCounter w) r
        (trace w ++ aborted ++ [StorageSetItem "_GeoLocData" item; Completion VNull data]).

(** The world in which a callback runs *)
Definition at_clock (w : world) (r : reply) : world :=
  World (heap w) (localStorage w) (at_time r) (defaultProviders w)
        (uidCounter w) (requests w)
        (trace w ++ [ProviderCallback (reply_err r) (reply_data r)]).

(** The part of the trace that belongs to one provider in the sequential
    strategy: it is called, and it calls back. *)
Definition exchange (answer : provider -> reply) (q : loc) (t : number) (p : provider)
    : list effect :=
  [ProviderGetPosition p (SequentialCallback q t) t;
   ProviderCallback (reply_err (answer p)) (reply_data (answer p))].

(** The requests other than [id] *)
Definition others (id : nat) (w : world) : list (nat * provider) :=
  filter (fun e => fst e <> id) (requests w).

Definition aborts (r : list (nat * provider)) : list effect :=
  map (fun e => HandleAbort (fst e) (snd e)) r.

Definition with_requests (w : world) (r : list (nat * provider)) : world :=
  World (heap w) (localStorage w) (clock w) (defaultProviders w)
        (uidCounter w) r (trace w).

(** What is invoked when a request fails: the completion callback if no other
    request is left, nothing otherwise. *)
Definition completion_if_last (r : list (nat * provider)) (e : val) : list effect :=
  match r with
  | [] => [Completion e VNull]
  | _ :: _ => []
  end.

(** Since the call began with the completions [C0], nothing was completed, or
    one thing was and no request is in flight. *)
Definition settled (C0 : list (val * val)) (w : world) : Prop :=
  completions (trace w) = C0 \/
  (requests w = [] /\ exists c, completions (trace w) = C0 ++ [c]).

(** How far a step goes down the queue: [k] providers leave it from the
    front, and are the ones called, in that order. *)
Definition advances (q : loc) (k : nat) (w w' : world) : Prop :=
  called (trace w') = called (trace w) ++ take k (heap w !!! q) /\
  heap w' !!! q = drop k (heap w !!! q).


(** What the code makes of a reply.  It is a failure when it carries an
    error, or no error and a latitude or longitude that is not a number; the
    error handed on is then the provider's, or the code's TypeError. *)
Definition failed (r : reply) : bool :=
  truthy (reply_err r) || malformed (reply_data r).

Definition error_of (r : reply) : val :=
  if truthy (reply_err r) then reply_err r else Incorrect_data.

(** A reply the callback can read: an error, or something that has
    properties ([undefined] and [null] have none). *)
Definition readable (r : reply) : bool :=
  truthy (reply_err r)
  || match reply_data r with
     | VUndefined | VNull => false
     | _ => true
     end.

(** The record that a result with these numbers leaves when stored at [now] *)
Definition item_of (latitude longitude : number) (now : Z) : string :=
  join_values "," [VNum latitude; VNum longitude; VNum (of_Z now)].


(** What is in force for a call: [options.maximumAge || this.maximumAge] and
    [options.providerTimeout || this.providerTimeout] *)
Definition max_age_of (this : GeoLoc) (a : first_argument) : number :=
  number_or (opt_maximumAge (options_of a)) (maximumAge this).

Definition timeout_of (this : GeoLoc) (a : first_argument) : number :=
  number_or (opt_providerTimeout (options_of a)) (providerTimeout this).

(** What the cache read gives in [w]: the cached position, or null *)
Definition cached (maximumAge : number) (w : world) : val :=
  match snd (_getPositionFromLocalStorage maximumAge w) with
  | Normal v => v
  | Throw _ => VNull
  end.


(** The ids that [setData] gives to [n] requests when [uidCounter] is [uid] *)
Definition ids_after (uid n : nat) : list nat := seq (S uid) n.

(** The calls of the parallel strategy to the providers [ps], with those ids *)
Definition calls_to (t : number) (uid : nat) (ps : list provider) : list effect :=
  zip_with (fun i p => ProviderGetPosition p (ParallelCallback i) t)
           (ids_after uid (length ps)) ps.


(** The callbacks of the parallel strategy, from the ids of their requests *)
Definition parallel_events (replies : list (nat * reply)) : list (callback * reply) :=
  map (fun e => (ParallelCallback (fst e), snd e)) replies.


(** What the code may do to localStorage: write the record, and nothing
    else. *)
Definition record_only (before after : gmap string string) : Prop :=
  (forall k, k <> "_GeoLocData" -> after !! k = before !! k) /\
  (is_Some (before !! "_GeoLocData") -> is_Some (after !! "_GeoLocData")).

(** *** The vocabulary of numbers written and read back *)

Local Open Scope string_scope.
Local Open Scope Z_scope.

(** A decimal digit *)
Definition is_digit (c : ascii) : bool :=
  match digit_of 10 c with Some _ => true | None => false end.

(** Its value *)
Definition digit (c : ascii) : Z := default 0 (digit_of 10 c).

(** A string of decimal digits *)
Fixpoint all_digits (s : string) : bool :=
  match s with
  | EmptyString => true
  | String c r => is_digit c && all_digits r
  end.

(** The number that [read_digits] accumulates over a string of digits *)
Fixpoint value_from (acc : Z) (s : string) : Z :=
  match s with
  | EmptyString => acc
  | String c r => value_from (acc * 10 + digit c) r
  end.

(** Where [read_digits] stops: at the end, or before what is no digit *)
Definition stops (s : string) : bool :=
  match s with
  | EmptyString => true
  | String c _ => negb (is_digit c)
  end.

(** No white space anywhere: [trim] leaves the string as it is *)
Fixpoint no_white (s : string) : bool :=
  match s with
  | EmptyString => true
  | String c r => negb (is_white c) && no_white r
  end.

(** What may follow a first digit in the strings that [number_to_string]
    makes *)
Definition after_digit (s : string) : bool :=
  match s with
  | EmptyString => true
  | String c _ => is_digit c || Ascii.eqb c "." || Ascii.eqb c "e"
  end.

(** StrUnsignedDecimalLiteral, Infinity apart: the digits, the fraction, the
    exponent *)
Definition read_decimal (s : string) : number :=
  let '(ip, ni, r1) := read_digits 10 s 0 0 in
  let '(m, nf, r2) :=
    match r1 with
    | String "." r => read_digits 10 r ip 0
    | _ => (ip, 0, r1)
    end in
  if 0 <? ni + nf then
    match read_exponent r2 with
    | Some x => Finite m (x - nf)
    | None => NaN
    end
  else NaN.

(** Number::toString on the digits of the mantissa and the position of the
    decimal point *)
Definition layout (ds : string) (n : Z) : string :=
  let k := Z.of_nat (String.length ds) in
  if (k <=? n) && (n <=? 21) then ds ++ zeros (Z.to_nat (n - k))
  else if (0 <? n) && (n <=? 21) then
    substring 0 (Z.to_nat n) ds ++ "." ++ substring (Z.to_nat n) (Z.to_nat (k - n)) ds
  else if (-6 <? n) && (n <=? 0) then "0." ++ zeros (Z.to_nat (- n)) ++ ds
  else
    let x := n - 1 in
    let sign := if x <? 0 then "-" else "+" in
    let mant := if k =? 1 then ds
                else substring 0 1 ds ++ "." ++ substring 1 (Z.to_nat (k - 1)) ds in
    mant ++ "e" ++ sign ++ digits_of_positive (Z.abs x).

(** The same number, whatever the mantissa and the exponent that write it *)
Definition same_number (x y : number) : Prop :=
  match x, y with
  | NaN, NaN => True
  | Infinity a, Infinity b => a = b
  | Finite m1 e1, Finite m2 e2 => let '(a, b) := align m1 e1 m2 e2 in a = b
  | _, _ => False
  end.

(** The characters of the strings that [number_to_string] makes of finite
    numbers *)
Definition plain_char (c : ascii) : bool :=
  is_digit c || Ascii.eqb c "." || Ascii.eqb c "e" || Ascii.eqb c "+" || Ascii.eqb c "-".

Fixpoint all_plain (s : string) : bool :=
  match s with
  | EmptyString => true
  | String c r => plain_char c && all_plain r
  end.

(** No comma: [split] leaves the string in one piece *)
Fixpoint no_comma (s : string) : bool :=
  match s with
  | EmptyString => true
  | String c r => negb (Ascii.eqb c ",") && no_comma r
  end.

Local Open Scope list_scope.

(** *** Concrete calls *)



(** A record exactly one day old *)
Definition world_boundary : world :=
  World {[ 1%positive := ["html5geolocation"] ]}
        {[ "_GeoLocData" := "55.75,37.5,1000" ]}
        (1000 + 86400000) 1%positive 0 [] [].

(** [new GeoLoc()] with the array at location 1 for default providers *)
Definition GeoLoc_default : GeoLoc :=
  Build_GeoLoc (of_Z 10000) (of_Z (1000 * 60 * 60 * 24)) 1%positive.

(** Two providers, nothing stored, no call under way *)
Definition world_two : world :=
  World {[ 1%positive := ["gps"; "ip"] ]} ∅ 1000 1%positive 0 [] [].

Definition both_refuse (p : provider) : reply :=
  if String.eqb p "gps" then Reply 2000 (VStr "denied") VUndefined
  else Reply 3000 (VStr "offline") VUndefined.

(** The first provider refuses, the second one knows the position *)
Definition gps_refuses (p : provider) : reply :=
  if String.eqb p "gps" then Reply 2000 (VStr "denied") VUndefined
  else Reply 3000 VNull (VObject [("latitude", VNum (Finite 1 0));
                                  ("longitude", VNum (Finite 2 0))]).

Definition Moscow : val :=
  VObject [("latitude", VNum (Finite 5575 (-2))); ("longitude", VNum (Finite 3762 (-2)))].

(** A sequential call on its way: two providers left in the queue *)
Definition world_queue : world :=
  World {[ 2%positive := ["ip"; "manual"] ]} ∅ 1000 1%positive 0 [] [].

Definition garbage : val :=
  VObject [("latitude", VStr "bad"); ("longitude", VNum (Finite 2 0))].

(** A sequential call on its way: the queue is empty *)
Definition world_last : world :=
  World {[ 2%positive := [] ]} ∅ 1000 1%positive 0 [] [].

(** The page has just loaded: no default providers were set, nothing is
    stored. *)
Definition world_fresh : world :=
  World {[ 1%positive := [] ]} ∅ 1383000000000 1%positive 0 [] [].

(** The instance's array at location 1, the caller's at location 2 *)
Definition world_override : world :=
  World {[ 1%positive := ["html5geolocation"]; 2%positive := ["ip"] ]} ∅
        1383000000000 1%positive 0 [] [].

(** A parallel call on its way: both requests are in flight *)
Definition world_racing : world :=
  World {[ 1%positive := ["gps"; "ip"] ]} ∅ 1000 1%positive 2
        [(1%nat, "gps"); (2%nat, "ip")] [].

(** The race of the two providers, won by the first *)
Definition world_won : world :=
  run [(ParallelCallback 1, Reply 2000 VNull Moscow)]
      (start (getPositionParallel GeoLoc_default TheCallback) world_two).

(** The first provider refuses, then the second one succeeds *)
Definition race : list (callback * reply) :=
  [(ParallelCallback 1, Reply 2000 (VStr "denied") VUndefined);
   (ParallelCallback 2, Reply 3000 VNull Moscow)].

Definition nowhere : val :=
  VObject [("latitude", VNum NaN); ("longitude", VNum (Finite 3762 (-2)))].



(** The second provider returns a string for latitude *)
Definition ip_garbles (p : provider) : reply :=
  if String.eqb p "gps" then Reply 2000 (VStr "denied") VUndefined
  else Reply 3000 VNull garbage.


(** A provider that calls back with nothing at all *)
Definition silent : reply := Reply 2000 VUndefined VUndefined.


(** No provider at all, nothing stored *)
Definition world_none : world :=
  World {[ 1%positive := [] ]} ∅ 1000 1%positive 0 [] [].

(** Both providers of the race fail, the second one first *)
Definition both_fail : list (nat * reply) :=
  [(2%nat, Reply 2000 VNull garbage); (1%nat, Reply 3000 (VStr "denied") VUndefined)].

(** A position stored a second ago *)
Definition world_cached : world :=
  World ∅ {[ "_GeoLocData" := item_of (Finite 5575 (-2)) (Finite (-12) 1) 1383000000000 ]}
        1383000001000 1%positive 0 [] [].

(** The instance's list, at location 1, is empty; the caller's, at location 2,
    is not *)
Definition world_no_list : world :=
  World {[ 1%positive := []; 2%positive := ["ip"] ]} ∅ 1000 1%positive 0 [] [].

(** Unfolds the monad: a computation applied to a world becomes a pair. *)
Ltac unfold_monad :=
  cbv [mbind M_bind mret M_ret bind ret throw lift gets modify emit set_heap
       set_requests set_clock set_uidCounter set_localStorage
       set_defaultProviders].

(** Brings both sides of an equation between traces to the same shape. *)
Ltac trace_norm :=
  repeat first [rewrite <- app_assoc | progress cbn [app flat_map]].

Ltac world_simpl :=
  cbn [heap localStorage clock defaultProviders uidCounter requests trace fst snd].

(** *** The monad *)

Lemma bind_normal {A B} (m : M A) (k : A -> M B) w w' a :
  m w = (w', Normal a) -> (m ≫= k) w = k a w'.
Proof. intros H. cbv [mbind M_bind bind]. by rewrite H. Qed.

Lemma bind_throw {A B} (m : M A) (k : A -> M B) w w' e :
  m w = (w', Throw e) -> (m ≫= k) w = (w', Throw e).
Proof. intros H. cbv [mbind M_bind bind]. by rewrite H. Qed.

(** *** Numbers *)



Lemma gt_not_le x y : gt x y = true -> le x y = false.
Proof.
  destruct x, y; cbn; try done; intros H; by apply negb_true_iff in H.
Qed.

(** On integers the model is integer arithmetic. *)
Lemma le_sub_of_Z a b c : le (sub (of_Z a) (of_Z b)) (of_Z c) = (a - b <=? c).
Proof.
  cbn. rewrite !Z.sub_diag. cbn. by rewrite !Z.mul_1_r.
Qed.

(** *** The model at work *)

Example Number_of_strings :
  map Number ["55.75"; " 12 "; ""; "abc"; "-1.5e3"; "0x1F"; "."; "-Infinity"; "1,2"]
  = [Finite 5575 (-2); Finite 12 0; Finite 0 0; NaN; Finite (-15) 2; Finite 31 0; NaN;
     Infinity true; NaN].
Proof. reflexivity. Qed.

Example strings_of_numbers :
  map number_to_string [Finite 5575 (-2); Finite (-15) 2; Finite 1 21; Finite 15 (-8);
                        Finite 5 (-2); NaN; Infinity true; Finite 0 3]
  = ["55.75"; "-1500"; "1e+21"; "1.5e-7"; "0.05"; "NaN"; "-Infinity"; "0"].
Proof. reflexivity. Qed.

Example split_record :
  split "," "55.75,37.62,1383000000000" = ["55.75"; "37.62"; "1383000000000"] /\
  split "," "" = [""] /\ split "," "1,,2" = ["1"; ""; "2"].
Proof. repeat split. Qed.

(** The first provider fails, the second one answers: both are called, in
    that order, the position is stored and handed over. *)
Example fallback_to_second_provider :
  trace <$> serve 2 gps_refuses (start (getPosition GeoLoc_default TheCallback) world_two)
  = Some
      [ProviderGetPosition "gps" (SequentialCallback 2%positive (of_Z 10000)) (of_Z 10000);
       ProviderCallback (VStr "denied") VUndefined;
       ProviderGetPosition "ip" (SequentialCallback 2%positive (of_Z 10000)) (of_Z 10000);
       ProviderCallback VNull (VObject [("latitude", VNum (Finite 1 0));
                                        ("longitude", VNum (Finite 2 0))]);
       StorageSetItem "_GeoLocData" "1,2,3000";
       Completion VNull (VObject [("latitude", VNum (Finite 1 0));
                                  ("longitude", VNum (Finite 2 0))])].
Proof. vm_compute. reflexivity. Qed.

(** A second call within the maximum age is answered from the cache, with the
    position the first one stored, and calls no provider. *)
Example second_call_from_cache :
  (fun w => drop (length (trace w)) (trace (start (getPosition GeoLoc_default TheCallback) w)))
    <$> serve 2 gps_refuses (start (getPosition GeoLoc_default TheCallback) world_two)
  = Some [Completion VNull (VObject [("latitude", VNum (Finite 1 0));
                                     ("longitude", VNum (Finite 2 0))])].
Proof. vm_compute. reflexivity. Qed.

(** The parallel strategy calls every provider at once and keeps their
    handles. *)
Example parallel_calls_all :
  let w := start (getPositionParallel GeoLoc_default TheCallback) world_two in
  trace w = [ProviderGetPosition "gps" (ParallelCallback 1) (of_Z 10000);
             ProviderGetPosition "ip" (ParallelCallback 2) (of_Z 10000)] /\
  requests w = [(1%nat, "gps"); (2%nat, "ip")] /\ uidCounter w = 2%nat.
Proof. vm_compute. repeat split. Qed.

(** *** The cache *)

Lemma read_no_item maximumAge w :
  stored w = None ->
  _getPositionFromLocalStorage maximumAge w = (w, Normal VNull).
Proof.
  unfold stored, _getPositionFromLocalStorage, getItem. unfold_monad.
  by intros ->.
Qed.

Lemma read_item maximumAge w s :
  stored w = Some s ->
  _getPositionFromLocalStorage maximumAge w =
    (w, Normal (if String.eqb s "" then VNull
                else if le (age_of w s) maximumAge then position_of s
                else VNull)).
Proof.
  unfold stored, _getPositionFromLocalStorage, getItem, Date_now. unfold_monad.
  intros ->. destruct s as [|c r]; [done|].
  unfold age_of, timestamp_of, position_of.
  by destruct (le _ _).
Qed.

(** The read never throws and changes nothing: it gives null, or the position
    of the stored record. *)
Lemma read_returns maximumAge w :
  exists v, _getPositionFromLocalStorage maximumAge w = (w, Normal v) /\
    (v = VNull \/ exists s, stored w = Some s /\ v = position_of s).
Proof.
  destruct (stored w) as [s|] eqn:Hs.
  - rewrite (read_item _ _ _ Hs). eexists; split; [reflexivity|].
    destruct (String.eqb s ""); [by left|].
    destruct (le _ _); [|by left]. right. by exists s.
  - rewrite (read_no_item _ _ Hs). eexists; split; [reflexivity|]. by left.
Qed.

(** A call that misses the cache copies the instance's array and calls the
    provider at its head; the copy is a new array. *)
Lemma queue_start a t w p rest :
  heap w !!! a = p :: rest ->
  (queue ← slice0 a; getPosition_next queue t) w =
    (let q := fresh (dom (heap w)) in
     World (<[q := rest]> (<[q := p :: rest]> (heap w))) (localStorage w) (clock w)
           (defaultProviders w) (uidCounter w) (requests w)
           (trace w ++ [ProviderGetPosition p (SequentialCallback q t) t]),
     Normal tt).
Proof.
  intros Ha. unfold slice0, getPosition_next, shift. unfold_monad. world_simpl.
  rewrite lookup_total_insert_eq, Ha. by world_simpl.
Qed.

Lemma queue_start_empty a t w :
  heap w !!! a = [] ->
  (queue ← slice0 a; getPosition_next queue t) w =
    (World (<[fresh (dom (heap w)) := []]> (heap w)) (localStorage w) (clock w)
           (defaultProviders w) (uidCounter w) (requests w) (trace w),
     Throw (VError "TypeError" "Cannot read property getPosition")).
Proof.
  intros Ha. unfold slice0, getPosition_next, shift. unfold_monad. world_simpl.
  rewrite lookup_total_insert_eq, Ha. by world_simpl.
Qed.

(** What [getPosition] does after the cache: nothing of it depends on
    [options.providers]. *)
Lemma getPosition_unfold this a w :
  getPosition this a w =
    match _getPositionFromLocalStorage
            (number_or (opt_maximumAge (options_of a)) (maximumAge this)) w with
    | (w', Normal pos) =>
        if truthy pos then cb VNull pos w'
        else (queue ← slice0 (providers this);
              getPosition_next queue
                (number_or (opt_providerTimeout (options_of a)) (providerTimeout this))) w'
    | (w', Throw e) => (w', Throw e)
    end.
Proof.
  unfold getPosition. cbv [mbind M_bind bind].
  destruct (_getPositionFromLocalStorage _ w) as [w' [pos|e]]; [|done].
  by destruct (truthy pos).
Qed.

Lemma position_of_truthy s : truthy (position_of s) = true.
Proof. done. Qed.

(** *** C4 *)




(** *** C5 *)

(** C5: whatever maximum age is in force (the call's, else the instance's), a
    call that finds a record whose age is at most that value, the boundary
    included, invokes the completion callback with [(null, cached position)]
    and calls no provider; a call that finds a record strictly older does not
    answer from the cache and calls a provider. *)
Theorem getPosition_cache_boundary this a w s :
  stored w = Some s -> s <> "" ->
  let m := number_or (opt_maximumAge (options_of a)) (maximumAge this) in
  (le (age_of w s) m = true ->
     getPosition this a w = (after w [Completion VNull (position_of s)], Normal tt)) /\
  (gt (age_of w s) m = true ->
     forall p rest, heap w !!! providers this = p :: rest ->
     exists c t,
       snd (getPosition this a w) = Normal tt /\
       trace (fst (getPosition this a w)) = trace w ++ [ProviderGetPosition p c t]).
Proof.
  intros Hs Hne m. rewrite getPosition_unfold. fold m.
  rewrite (read_item _ _ _ Hs).
  assert (String.eqb s "" = false) as -> by by apply String.eqb_neq.
  split.
  - intros ->. by rewrite position_of_truthy.
  - intros Hg p rest Hq. rewrite (gt_not_le _ _ Hg). cbn [truthy].
    rewrite (queue_start _ _ _ _ _ Hq). by eexists _, _.
Qed.

Lemma getPosition_cache_boundary_witness :
  age_of world_boundary "55.75,37.5,1000" = of_Z 86400000 /\
  getPosition GeoLoc_default TheCallback world_boundary =
    (after world_boundary [Completion VNull (position_of "55.75,37.5,1000")], Normal tt).
Proof.
  split; [reflexivity|].
  apply (proj1 (getPosition_cache_boundary GeoLoc_default TheCallback world_boundary
                  "55.75,37.5,1000" eq_refl ltac:(discriminate))).
  reflexivity.
Defined.

(** *** The sequential strategy, step by step *)

Lemma incorrect_data_numeric data latitude longitude w :
  numeric data latitude longitude -> incorrect_data data w = (w, Normal false).
Proof.
  intros [Hla Hlo]. unfold incorrect_data. unfold_monad. by rewrite Hla, Hlo.
Qed.

Lemma incorrect_data_malformed data w :
  malformed data = true -> incorrect_data data w = (w, Normal true).
Proof.
  unfold malformed, incorrect_data. unfold_monad.
  destruct (get data "latitude") as [la|]; [|done].
  destruct (get data "longitude") as [lo|]; [|done].
  destruct (String.eqb (typeof la) "number"); cbn; [|done].
  by intros ->.
Qed.

Lemma store_position_numeric data latitude longitude w :
  numeric data latitude longitude ->
  (store_position data;; cb VNull data) w =
    (stored_and_completed w data latitude longitude [] (requests w), Normal tt).
Proof.
  intros [Hla Hlo]. unfold store_position, setItem, Date_now, cb. unfold_monad.
  rewrite Hla, Hlo. world_simpl. unfold stored_and_completed.
  by rewrite <- app_assoc.
Qed.

Lemma getPosition_next_cons q t w p rest :
  heap w !!! q = p :: rest ->
  getPosition_next q t w =
    (World (<[q := rest]> (heap w)) (localStorage w) (clock w) (defaultProviders w)
           (uidCounter w) (requests w)
           (trace w ++ [ProviderGetPosition p (SequentialCallback q t) t]),
     Normal tt).
Proof.
  intros Hq. unfold getPosition_next, shift. unfold_monad. by rewrite Hq.
Qed.

Lemma callback_err_cons q t err data w p rest :
  truthy err = true -> heap w !!! q = p :: rest ->
  getPosition_callback q t err data w = getPosition_next q t w.
Proof.
  intros He Hq. unfold getPosition_callback, length_of. rewrite He.
  unfold_monad. by rewrite Hq.
Qed.

Lemma callback_err_nil q t err data w :
  truthy err = true -> heap w !!! q = [] ->
  getPosition_callback q t err data w = (after w [Completion err VNull], Normal tt).
Proof.
  intros He Hq. unfold getPosition_callback, length_of. rewrite He.
  unfold_monad. by rewrite Hq.
Qed.

Lemma callback_malformed_cons q t err data w p rest :
  truthy err = false -> malformed data = true -> heap w !!! q = p :: rest ->
  getPosition_callback q t err data w = getPosition_next q t w.
Proof.
  intros He Hd Hq. unfold getPosition_callback, length_of. rewrite He.
  cbv [mbind M_bind bind]. rewrite (incorrect_data_malformed _ _ Hd).
  unfold_monad. by rewrite Hq.
Qed.

Lemma callback_malformed_nil q t err data w :
  truthy err = false -> malformed data = true -> heap w !!! q = [] ->
  getPosition_callback q t err data w = (after w [Completion Incorrect_data VNull], Normal tt).
Proof.
  intros He Hd Hq. unfold getPosition_callback, length_of. rewrite He.
  cbv [mbind M_bind bind]. rewrite (incorrect_data_malformed _ _ Hd).
  unfold_monad. by rewrite Hq.
Qed.

Lemma callback_numeric q t err data latitude longitude w :
  truthy err = false -> numeric data latitude longitude ->
  getPosition_callback q t err data w =
    (stored_and_completed w data latitude longitude [] (requests w), Normal tt).
Proof.
  intros He Hd. unfold getPosition_callback. rewrite He.
  cbv [mbind M_bind bind]. rewrite (incorrect_data_numeric _ _ _ _ Hd).
  by apply store_position_numeric.
Qed.

Lemma deliver_unfold c r w :
  deliver c r w =
    fst (match c with
         | SequentialCallback q t => getPosition_callback q t (reply_err r) (reply_data r)
         | ParallelCallback id => setData_callback id (reply_err r) (reply_data r)
         end (at_clock w r)).
Proof. reflexivity. Qed.

Lemma called_app t1 t2 : called (t1 ++ t2) = called t1 ++ called t2.
Proof. apply omap_app. Qed.

Lemma completions_app t1 t2 : completions (t1 ++ t2) = completions t1 ++ completions t2.
Proof. apply omap_app. Qed.

Lemma incorrect_data_cases data :
  (exists latitude longitude, numeric data latitude longitude)
  \/ malformed data = true
  \/ exists e, forall w, incorrect_data data w = (w, Throw e).
Proof.
  unfold numeric, malformed, incorrect_data.
  destruct data as [| |b|n|s|props|name message]; cbn [get];
    try (right; left; reflexivity);
    try (right; right; eexists; intros; unfold_monad; reflexivity).
  destruct (assoc "latitude" props) as [| |?|la|?|?|??] eqn:Hla;
      try (right; left; reflexivity).
    destruct (assoc "longitude" props) as [| |?|lo|?|?|??] eqn:Hlo;
      try (right; left; reflexivity).
    left. by exists la, lo.
Qed.

Lemma advances_0 q w w' :
  called (trace w') = called (trace w) -> heap w' = heap w -> advances q 0 w w'.
Proof. intros Hc Hh. split; [by rewrite Hc, take_0, app_nil_r | by rewrite Hh]. Qed.

Lemma advances_trans q k1 k2 w1 w2 w3 :
  advances q k1 w1 w2 -> advances q k2 w2 w3 -> advances q (k1 + k2) w1 w3.
Proof.
  intros [Hc1 Hh1] [Hc2 Hh2]. split.
  - by rewrite Hc2, Hc1, Hh1, <- app_assoc, take_take_drop.
  - by rewrite Hh2, Hh1, drop_drop.
Qed.

Lemma next_advances q t w p rest :
  heap w !!! q = p :: rest ->
  advances q 1 w (fst (getPosition_next q t w)).
Proof.
  intros Hq. rewrite (getPosition_next_cons _ _ _ _ _ Hq). split; world_simpl.
  - by rewrite called_app, Hq.
  - by rewrite lookup_total_insert_eq, Hq.
Qed.

(** Whatever a provider passes to the callback, at most one provider leaves
    the queue, from the front, and it is the one called. *)
Lemma callback_advances q t err data w :
  exists k, (k <= 1)%nat /\ advances q k w (fst (getPosition_callback q t err data w)).
Proof.
  destruct (truthy err) eqn:He.
  - destruct (heap w !!! q) as [|p rest] eqn:Hq.
    + exists 0%nat. split; [lia|]. rewrite (callback_err_nil _ _ _ _ _ He Hq).
      apply advances_0; [|done]. cbn [fst after trace].
      rewrite called_app. cbn. by rewrite app_nil_r.
    + exists 1%nat. split; [lia|]. rewrite (callback_err_cons _ _ _ _ _ _ _ He Hq).
      by apply next_advances with p rest.
  - destruct (incorrect_data_cases data) as [(la & lo & Hd) | [Hd | [e Hd]]].
    + exists 0%nat. split; [lia|]. rewrite (callback_numeric _ _ _ _ _ _ _ He Hd).
      apply advances_0; [|done]. cbn [fst stored_and_completed trace].
      rewrite called_app. cbn. by rewrite app_nil_r.
    + destruct (heap w !!! q) as [|p rest] eqn:Hq.
      * exists 0%nat. split; [lia|]. rewrite (callback_malformed_nil _ _ _ _ _ He Hd Hq).
        apply advances_0; [|done]. cbn [fst after trace].
        rewrite called_app. cbn. by rewrite app_nil_r.
      * exists 1%nat. split; [lia|].
        rewrite (callback_malformed_cons _ _ _ _ _ _ _ He Hd Hq).
        by apply next_advances with p rest.
    + exists 0%nat. split; [lia|]. unfold getPosition_callback. rewrite He.
      rewrite (bind_throw _ _ _ _ _ (Hd w)). by apply advances_0.
Qed.

Lemma deliver_advances q t r w :
  exists k, (k <= 1)%nat /\ advances q k w (deliver (SequentialCallback q t) r w).
Proof.
  rewrite deliver_unfold.
  destruct (callback_advances q t (reply_err r) (reply_data r) (at_clock w r))
    as (k & Hk & Ha).
  exists k. split; [done|].
  apply (advances_trans q 0 k w (at_clock w r)); [|done].
  apply advances_0; [|done]. cbn [at_clock trace].
  rewrite called_app. cbn. by rewrite app_nil_r.
Qed.

Lemma run_advances q t replies : forall w,
  exists k, (k <= length replies)%nat /\
    advances q k w (run (map (fun r => (SequentialCallback q t, r)) replies) w).
Proof.
  induction replies as [|r replies IH]; intros w.
  - exists 0%nat. split; [done|]. by apply advances_0.
  - destruct (deliver_advances q t r w) as (k1 & Hk1 & H1).
    destruct (IH (deliver (SequentialCallback q t) r w)) as (k2 & Hk2 & H2).
    exists (k1 + k2)%nat. split; [cbn [length]; lia|].
    by apply advances_trans with (deliver (SequentialCallback q t) r w).
Qed.

Lemma serve_pending fuel answer w p c t :
  last (trace w) = Some (ProviderGetPosition p c t) ->
  serve (S fuel) answer w = serve fuel answer (deliver c (answer p) w).
Proof. intros H. cbn [serve]. by rewrite H. Qed.

Lemma serve_completed fuel answer w err pos :
  last (trace w) = Some (Completion err pos) ->
  serve fuel answer w = Some w.
Proof. intros H. destruct fuel; cbn [serve]; by rewrite H. Qed.

Lemma default_last_cons {A} (p p' : A) rest :
  default p (last (p' :: rest)) = default p' (last rest).
Proof. rewrite last_cons. by destruct (last rest). Qed.

Lemma serve_all_fail answer q t rest : forall w p,
  last (trace w) = Some (ProviderGetPosition p (SequentialCallback q t) t) ->
  heap w !!! q = rest ->
  (forall x, x ∈ p :: rest -> truthy (reply_err (answer x)) = true) ->
  exists w', serve (S (length rest)) answer w = Some w' /\
    trace w' = trace w
               ++ [ProviderCallback (reply_err (answer p)) (reply_data (answer p))]
               ++ flat_map (exchange answer q t) rest
               ++ [Completion (reply_err (answer (default p (last rest)))) VNull] /\
    heap w' !!! q = [].
Proof.
  induction rest as [|p' rest IH]; intros w p Hlast Hq Hall.
  - rewrite (serve_pending _ _ _ _ _ _ Hlast), deliver_unfold.
    rewrite callback_err_nil; [|apply Hall; set_solver|done].
    cbn [fst]. erewrite serve_completed; [|apply last_snoc].
    eexists; split; [reflexivity|]. split; [|done].
    cbn. by rewrite <- app_assoc.
  - cbn [length]. rewrite (serve_pending _ _ _ _ _ _ Hlast), deliver_unfold.
    rewrite (callback_err_cons _ _ _ _ _ p' rest); [|apply Hall; set_solver|done].
    assert (Hn := getPosition_next_cons q t (at_clock w (answer p)) p' rest Hq).
    destruct (IH (fst (getPosition_next q t (at_clock w (answer p)))) p')
      as (w' & Hs & Ht & Hh).
    { rewrite Hn. cbn [fst trace]. apply last_snoc. }
    { rewrite Hn. cbn [fst heap]. apply lookup_total_insert_eq. }
    { intros x Hx. apply Hall. by constructor. }
    exists w'. split; [exact Hs|]. split; [|exact Hh].
    rewrite Ht, Hn. cbn [fst trace at_clock flat_map exchange].
    rewrite <- !app_assoc. cbn [app].
    by rewrite default_last_cons.
Qed.

(** *** C6 *)

(** C6: in the sequential strategy the providers are called in the order of
    the queue, whatever they answer: the first one at once, and after [n]
    callbacks at most [n] more, those at the front of the queue, one after the
    other.  When every provider reports an error, each is called only after
    the one before it has called back, with the same queue, and after the last
    one the completion callback is invoked with that provider's error and
    null, and nothing is called any more. *)
Theorem sequential_in_order q t w p rest :
  heap w !!! q = p :: rest ->
  (forall replies,
     let w' := run (map (fun r => (SequentialCallback q t, r)) replies)
                   (start (getPosition_next q t) w) in
     exists k, (k <= length replies)%nat /\
       called (trace w') = called (trace w) ++ p :: take k rest /\
       heap w' !!! q = drop k rest) /\
  (forall answer,
     (forall x, x ∈ p :: rest -> truthy (reply_err (answer x)) = true) ->
     exists w',
       serve (length (p :: rest)) answer (start (getPosition_next q t) w) = Some w' /\
       trace w' = trace w
                  ++ flat_map (exchange answer q t) (p :: rest)
                  ++ [Completion (reply_err (answer (default p (last rest)))) VNull] /\
       heap w' !!! q = []).
Proof.
  intros Hq. unfold start. rewrite (getPosition_next_cons _ _ _ _ _ Hq). cbn [fst].
  split.
  - intros replies. cbv zeta.
    match goal with |- context [run ?ev ?w0] =>
      destruct (run_advances q t replies w0) as (k & Hk & Hc & Hh) end.
    exists k. split; [done|]. rewrite Hc, Hh. cbn [trace heap].
    by rewrite called_app, lookup_total_insert_eq, <- app_assoc.
  - intros answer Hall.
    destruct (serve_all_fail answer q t rest
                (World (<[q := rest]> (heap w)) (localStorage w) (clock w)
                       (defaultProviders w) (uidCounter w) (requests w)
                       (trace w ++ [ProviderGetPosition p (SequentialCallback q t) t]))
                p) as (w' & Hs & Ht & Hh); [| |exact Hall|].
    { cbn [trace]. apply last_snoc. }
    { cbn [heap]. apply lookup_total_insert_eq. }
    exists w'. split; [exact Hs|]. split; [|exact Hh].
    rewrite Ht. cbn [trace flat_map exchange]. by rewrite <- !app_assoc.
Qed.

Lemma sequential_in_order_witness :
  exists w',
    serve 2 both_refuse (start (getPosition_next 1%positive (of_Z 10000)) world_two) = Some w' /\
    trace w' =
      [ProviderGetPosition "gps" (SequentialCallback 1%positive (of_Z 10000)) (of_Z 10000);
       ProviderCallback (VStr "denied") VUndefined;
       ProviderGetPosition "ip" (SequentialCallback 1%positive (of_Z 10000)) (of_Z 10000);
       ProviderCallback (VStr "offline") VUndefined;
       Completion (VStr "offline") VNull] /\
    heap w' !!! 1%positive = [].
Proof.
  apply (proj2 (sequential_in_order 1%positive (of_Z 10000) world_two "gps" ["ip"] eq_refl)
               both_refuse).
  intros x Hx. apply elem_of_cons in Hx as [-> | Hx]; [reflexivity|].
  apply list_elem_of_singleton in Hx as ->. reflexivity.
Defined.

(** *** C7 *)

(** C7: in the sequential strategy, when a provider calls back without an
    error and with a number for latitude and for longitude, the record is
    written to localStorage with the time of the callback, then the completion
    callback is invoked with [(null, data)]; the queue is left as it is and no
    provider is called any more, even when some remain. *)
Theorem sequential_success_stores_then_completes q t w r latitude longitude :
  truthy (reply_err r) = false ->
  numeric (reply_data r) latitude longitude ->
  let w' := deliver (SequentialCallback q t) r w in
  let item := join_values "," [VNum latitude; VNum longitude; VNum (of_Z (at_time r))] in
  trace w' = trace w ++ [ProviderCallback (reply_err r) (reply_data r);
                         StorageSetItem "_GeoLocData" item;
                         Completion VNull (reply_data r)] /\
  localStorage w' = <["_GeoLocData" := item]> (localStorage w) /\
  heap w' = heap w /\
  forall fuel answer, serve fuel answer w' = Some w'.
Proof.
  intros He Hd. cbv zeta. rewrite deliver_unfold.
  rewrite (callback_numeric _ _ _ _ _ _ _ He Hd).
  cbn [fst stored_and_completed at_clock trace localStorage heap clock].
  rewrite <- app_assoc. cbn [app].
  repeat split.
  intros fuel answer. eapply serve_completed.
  unfold stored_and_completed. cbn [trace app].
  match goal with |- context [ ?l ++ [?a; ?b] ] => change (l ++ [a; b]) with (l ++ [a] ++ [b]) end.
  rewrite app_assoc. apply last_snoc.
Qed.

Lemma sequential_success_stores_then_completes_witness :
  let w' := deliver (SequentialCallback 2%positive (of_Z 10000))
                    (Reply 1383000000000 VNull Moscow) world_queue in
  trace w' = [ProviderCallback VNull Moscow;
              StorageSetItem "_GeoLocData" "55.75,37.62,1383000000000";
              Completion VNull Moscow] /\
  localStorage w' = {[ "_GeoLocData" := "55.75,37.62,1383000000000" ]} /\
  heap w' = {[ 2%positive := ["ip"; "manual"] ]} /\
  forall fuel answer, serve fuel answer w' = Some w'.
Proof.
  apply (sequential_success_stores_then_completes 2%positive (of_Z 10000) world_queue
           (Reply 1383000000000 VNull Moscow) (Finite 5575 (-2)) (Finite 3762 (-2))).
  - reflexivity.
  - split; reflexivity.
Defined.

(** *** C8 *)

(** C8: in the sequential strategy a result without an error whose latitude or
    longitude is not a number is handled as a provider error is: with
    providers left in the queue, the next one is called, exactly as after an
    error; with none left, the completion callback is invoked with a
    TypeError made by the code and null, where a provider error would have
    been handed over as it is. *)
Theorem sequential_malformed_like_error q t w err data :
  truthy err = false -> malformed data = true ->
  (forall p rest, heap w !!! q = p :: rest ->
     getPosition_callback q t err data w =
       (World (<[q := rest]> (heap w)) (localStorage w) (clock w) (defaultProviders w)
              (uidCounter w) (requests w)
              (trace w ++ [ProviderGetPosition p (SequentialCallback q t) t]),
        Normal tt) /\
     forall err' data', truthy err' = true ->
       getPosition_callback q t err' data' w = getPosition_callback q t err data w) /\
  (heap w !!! q = [] ->
     getPosition_callback q t err data w =
       (after w [Completion (VError "TypeError" "Incorrect data") VNull], Normal tt) /\
     VError "TypeError" "Incorrect data" <> err /\
     forall err' data', truthy err' = true ->
       getPosition_callback q t err' data' w = (after w [Completion err' VNull], Normal tt)).
Proof.
  intros He Hd. split.
  - intros p rest Hq. rewrite (callback_malformed_cons _ _ _ _ _ _ _ He Hd Hq).
    split; [by apply getPosition_next_cons|].
    intros err' data' He'. by apply callback_err_cons with p rest.
  - intros Hq. split; [by apply callback_malformed_nil|]. split.
    + intros <-. discriminate He.
    + intros err' data' He'. by apply callback_err_nil.
Qed.

Lemma sequential_malformed_like_error_witness :
  getPosition_callback 2%positive (of_Z 10000) VNull garbage world_last =
    (after world_last [Completion (VError "TypeError" "Incorrect data") VNull], Normal tt).
Proof.
  apply (proj2 (sequential_malformed_like_error 2%positive (of_Z 10000) world_last
                  VNull garbage eq_refl eq_refl)).
  reflexivity.
Defined.

(** *** C3 *)

Lemma getPosition_empty_queue this a w :
  _getPositionFromLocalStorage
    (number_or (opt_maximumAge (options_of a)) (maximumAge this)) w = (w, Normal VNull) ->
  heap w !!! providers this = [] ->
  snd (getPosition this a w) = Throw (VError "TypeError" "Cannot read property getPosition") /\
  trace (fst (getPosition this a w)) = trace w.
Proof.
  intros Hmiss Hq. rewrite getPosition_unfold, Hmiss. cbn [truthy].
  by rewrite (queue_start_empty _ _ _ Hq).
Qed.

(** C3, where the code departs from it: with no provider and nothing in the
    cache, [GeoLoc.getPosition(cb)] throws a TypeError out of the call, and
    the completion callback is not invoked. *)
Theorem getPosition_without_providers_throws :
  snd (static_getPosition TheCallback world_fresh) =
    Throw (VError "TypeError" "Cannot read property getPosition") /\
  completions (trace (fst (static_getPosition TheCallback world_fresh))) = [].
Proof. split; vm_compute; reflexivity. Qed.

(** *** C1 *)

(** [options.providers] is read into a local that nothing uses: the call does
    the same with it and without it. *)
Lemma getPosition_ignores_override this timeout age override w :
  getPosition this (TheOptions (Options timeout age (Some override))) w =
  getPosition this (TheOptions (Options timeout age None)) w.
Proof. reflexivity. Qed.

(** C1, where the code departs from it: the instance lists one provider, the
    call names another one in [options.providers]; the provider called is the
    instance's. *)
Theorem getPosition_calls_instance_provider :
  heap world_override !!! 2%positive = ["ip"] /\
  called (trace (start (getPosition GeoLoc_default
                          (TheOptions (Options None None (Some 2%positive))))
                       world_override)) = ["html5geolocation"].
Proof. split; vm_compute; reflexivity. Qed.

(** *** The parallel strategy, step by step *)

Lemma delete_request_spec id w :
  delete_request id w = (with_requests w (others id w), Normal tt).
Proof. reflexivity. Qed.

Lemma abort_each l : forall w,
  for_each l (fun e => emit (HandleAbort (fst e) (snd e));; delete_request (fst e)) w =
    (World (heap w) (localStorage w) (clock w) (defaultProviders w) (uidCounter w)
           (foldl (fun r e => filter (fun x => fst x <> fst e) r) (requests w) l)
           (trace w ++ aborts l),
     Normal tt).
Proof.
  induction l as [|e l IH]; intros w.
  - cbn. rewrite app_nil_r. by destruct w.
  - cbn [for_each]. unfold delete_request at 1. unfold_monad. world_simpl.
    fold (@bind unit unit). rewrite IH. world_simpl.
    by rewrite <- app_assoc.
Qed.

Lemma delete_all (l : list (nat * provider)) : forall cur : list (nat * provider),
  (forall x, x ∈ cur -> fst x ∈ map fst l) ->
  foldl (fun r e => filter (fun x => fst x <> fst e) r) cur l = [].
Proof.
  induction l as [|e l IH]; intros cur Hcur.
  - destruct cur as [|x cur]; [done|].
    specialize (Hcur x ltac:(by constructor)). by apply elem_of_nil in Hcur.
  - cbn [foldl]. apply IH. intros x Hx.
    apply list_elem_of_filter in Hx as [Hne Hx].
    specialize (Hcur x Hx). cbn [map] in Hcur.
    apply elem_of_cons in Hcur as [Heq | Hin]; [by destruct Hne | done].
Qed.

Lemma abortAllRequests_spec w :
  abortAllRequests w = (after (with_requests w []) (aborts (requests w)), Normal tt).
Proof.
  unfold abortAllRequests. unfold_monad. rewrite abort_each, delete_all; [done|].
  intros x Hx. by apply list_elem_of_fmap_2.
Qed.

Lemma parallel_callback_err id err data w :
  truthy err = true ->
  setData_callback id err data w =
    (after (with_requests w (others id w)) (completion_if_last (others id w) err),
     Normal tt).
Proof.
  intros He. unfold setData_callback, delete_request, hasRequests, cb. rewrite He.
  unfold_monad. world_simpl. fold (others id w).
  destruct (others id w); cbn; [done|].
  unfold after, with_requests. cbn. by rewrite app_nil_r.
Qed.

Lemma parallel_callback_malformed id err data w :
  truthy err = false -> malformed data = true ->
  setData_callback id err data w =
    (after (with_requests w (others id w)) (completion_if_last (others id w) Incorrect_data),
     Normal tt).
Proof.
  intros He Hd. unfold setData_callback, delete_request. rewrite He.
  cbv [mbind M_bind bind gets set_requests modify]. world_simpl.
  rewrite (incorrect_data_malformed _ _ Hd).
  unfold hasRequests, cb. unfold_monad. world_simpl. fold (others id w).
  destruct (others id w); cbn; [done|].
  unfold after, with_requests. cbn. by rewrite app_nil_r.
Qed.

Lemma parallel_callback_numeric id err data latitude longitude w :
  truthy err = false -> numeric data latitude longitude ->
  setData_callback id err data w =
    (stored_and_completed w data latitude longitude (aborts (others id w)) [], Normal tt).
Proof.
  intros He Hd. unfold setData_callback. rewrite He.
  rewrite (bind_normal _ _ _ _ _ (delete_request_spec id w)).
  rewrite (bind_normal _ _ _ _ _ (incorrect_data_numeric _ _ _ _ Hd)). cbv iota.
  rewrite (bind_normal _ _ _ _ _ (abortAllRequests_spec _)).
  rewrite (store_position_numeric _ _ _ _ Hd).
  unfold stored_and_completed, after, with_requests. world_simpl.
  by rewrite <- app_assoc.
Qed.

Lemma parallel_callback_throws id err data e w :
  truthy err = false -> (forall w, incorrect_data data w = (w, Throw e)) ->
  setData_callback id err data w = (with_requests w (others id w), Throw e).
Proof.
  intros He Hd. unfold setData_callback. rewrite He.
  rewrite (bind_normal _ _ _ _ _ (delete_request_spec id w)).
  by rewrite (bind_throw _ _ _ _ _ (Hd _)).
Qed.

(** *** C9 *)

(** C9: in the parallel strategy, when a provider calls back with an error, or
    without one and with a latitude or longitude that is not a number, its
    request leaves [requests]; the completion callback is invoked, with that
    error (the code's TypeError for a malformed result) and null, exactly when
    no other request is left; otherwise nothing is invoked and the remaining
    requests stay in flight. *)
Theorem parallel_failure_completes_when_last id err data w :
  (truthy err = true \/ malformed data = true) ->
  let e := if truthy err then err else Incorrect_data in
  let w' := fst (setData_callback id err data w) in
  snd (setData_callback id err data w) = Normal tt /\
  requests w' = others id w /\
  (others id w = [] -> trace w' = trace w ++ [Completion e VNull]) /\
  (others id w <> [] -> trace w' = trace w) /\
  (Completion e VNull ∈ drop (length (trace w)) (trace w') <-> others id w = []).
Proof.
  intros H. cbv zeta.
  assert (setData_callback id err data w =
          (after (with_requests w (others id w))
                 (completion_if_last (others id w) (if truthy err then err else Incorrect_data)),
           Normal tt)) as ->.
  { destruct (truthy err) eqn:He; [by apply parallel_callback_err|].
    destruct H as [H|H]; [done|]. by apply parallel_callback_malformed. }
  cbn [fst snd after with_requests requests trace].
  rewrite drop_app_length.
  destruct (others id w) as [|x r]; cbn [completion_if_last].
  - repeat split; try done. intros _. by constructor.
  - rewrite app_nil_r. repeat split; try done. intros Hin. by apply elem_of_nil in Hin.
Qed.

Lemma parallel_failure_completes_when_last_witness :
  let w1 := fst (setData_callback 1 (VStr "denied") VUndefined world_racing) in
  (requests w1 = [(2%nat, "ip")] /\ trace w1 = []) /\
  let w2 := fst (setData_callback 2 (VStr "offline") VUndefined w1) in
  requests w2 = [] /\ trace w2 = [Completion (VStr "offline") VNull].
Proof.
  pose proof (parallel_failure_completes_when_last 1 (VStr "denied") VUndefined
                world_racing (or_introl eq_refl)) as (_ & Hr1 & _ & Ht1 & _).
  cbv zeta. split.
  - split; [exact Hr1|]. apply Ht1. discriminate.
  - pose proof (parallel_failure_completes_when_last 2 (VStr "offline") VUndefined
                  (fst (setData_callback 1 (VStr "denied") VUndefined world_racing))
                  (or_introl eq_refl)) as (_ & Hr2 & Ht2 & _ & _).
    split; [exact Hr2|]. apply Ht2. reflexivity.
Defined.

(** *** The parallel strategy, run by run *)

Lemma completions_aborts r : completions (aborts r) = [].
Proof. by induction r. Qed.

Lemma completions_callback err data : completions [ProviderCallback err data] = [].
Proof. reflexivity. Qed.

Lemma completions_if_last r e :
  completions (completion_if_last r e) = match r with [] => [(e, VNull)] | _ => [] end.
Proof. by destruct r. Qed.

Lemma deliver_parallel_success id r latitude longitude w :
  truthy (reply_err r) = false -> numeric (reply_data r) latitude longitude ->
  let w' := deliver (ParallelCallback id) r w in
  requests w' = [] /\
  trace w' = trace w ++ [ProviderCallback (reply_err r) (reply_data r)]
             ++ aborts (others id w)
             ++ [StorageSetItem "_GeoLocData"
                   (join_values "," [VNum latitude; VNum longitude; VNum (of_Z (at_time r))]);
                 Completion VNull (reply_data r)].
Proof.
  intros He Hd. cbv zeta. rewrite deliver_unfold.
  rewrite (parallel_callback_numeric _ _ _ _ _ _ He Hd).
  cbn [fst stored_and_completed at_clock requests trace clock].
  split; [done|]. by rewrite <- app_assoc.
Qed.

Lemma deliver_parallel_settles id r w :
  let w' := deliver (ParallelCallback id) r w in
  settled (completions (trace w)) w'.
Proof.
  cbv zeta. rewrite deliver_unfold. unfold settled.
  destruct (truthy (reply_err r)) eqn:He.
  - rewrite (parallel_callback_err _ _ _ _ He).
    cbn [fst after with_requests requests trace at_clock].
    rewrite !completions_app, completions_if_last, completions_callback, app_nil_r.
    destruct (others id (at_clock w r)) eqn:Ho.
    + right. split; [done|]. by eexists.
    + left. by rewrite app_nil_r.
  - destruct (incorrect_data_cases (reply_data r)) as [(la & lo & Hd) | [Hd | [e Hd]]].
    + destruct (deliver_parallel_success id r la lo w He Hd) as [Hr Ht].
      rewrite deliver_unfold in Hr, Ht. right. split; [exact Hr|].
      rewrite Ht, !completions_app, completions_aborts, completions_callback.
      cbn. by eexists.
    + rewrite (parallel_callback_malformed _ _ _ _ He Hd).
      cbn [fst after with_requests requests trace at_clock].
      rewrite !completions_app, completions_if_last, completions_callback, app_nil_r.
      destruct (others id (at_clock w r)) eqn:Ho.
      * right. split; [done|]. by eexists.
      * left. by rewrite app_nil_r.
    + rewrite (parallel_callback_throws _ _ _ _ _ He Hd).
      cbn [fst with_requests trace at_clock]. left.
      by rewrite completions_app, completions_callback, app_nil_r.
Qed.

Lemma abiding_nothing_in_flight events w :
  requests w = [] -> abiding events w = true -> events = [].
Proof.
  intros Hr. destruct events as [|[c r] rest]; [done|].
  cbn [abiding fst]. unfold in_flight. rewrite Hr.
  destruct c; cbn; done.
Qed.

Lemma abiding_cons c r rest w :
  abiding ((c, r) :: rest) w = true ->
  (exists id, c = ParallelCallback id) /\ abiding rest (deliver c r w) = true.
Proof.
  cbn [abiding fst snd]. intros H. apply andb_true_iff in H as [Hf Hrest].
  split; [|done]. destruct c; [done|]. by eexists.
Qed.

Lemma run_abiding_settled C0 events : forall w,
  settled C0 w -> abiding events w = true -> settled C0 (run events w).
Proof.
  induction events as [|[c r] rest IH]; intros w Hw Hab; [done|].
  destruct Hw as [Hc | [Hr _]].
  - apply abiding_cons in Hab as [[id ->] Hab].
    cbn [run foldl fst snd]. apply IH; [|done].
    rewrite <- Hc. apply deliver_parallel_settles.
  - by apply abiding_nothing_in_flight in Hab.
Qed.

Lemma run_abiding_success C0 id r latitude longitude events : forall w,
  completions (trace w) = C0 -> abiding events w = true ->
  (ParallelCallback id, r) ∈ events ->
  truthy (reply_err r) = false -> numeric (reply_data r) latitude longitude ->
  completions (trace (run events w)) = C0 ++ [(VNull, reply_data r)] /\
  requests (run events w) = [].
Proof.
  induction events as [|[c r'] rest IH]; intros w Hc Hab Hin He Hd.
  { by apply elem_of_nil in Hin. }
  apply abiding_cons in Hab as [[id' ->] Hab].
  apply elem_of_cons in Hin as [Heq | Hin].
  - inversion Heq; subst id' r'; clear Heq.
    destruct (deliver_parallel_success id r latitude longitude w He Hd) as [Hr Ht].
    rewrite (abiding_nothing_in_flight _ _ Hr Hab).
    cbn [run foldl fst snd]. split; [|done].
    by rewrite Ht, !completions_app, completions_aborts, completions_callback, Hc.
  - cbn [run foldl fst snd].
    destruct (deliver_parallel_settles id' r' w) as [Hsame | [Hr _]].
    + apply IH; try done. by rewrite Hsame.
    + rewrite (abiding_nothing_in_flight _ _ Hr Hab) in Hin.
      by apply elem_of_nil in Hin.
Qed.

Lemma setData_spec t p w :
  setData t p w =
    (World (heap w) (localStorage w) (clock w) (defaultProviders w)
           (S (uidCounter w)) (put_request (S (uidCounter w)) p (requests w))
           (trace w ++ [ProviderGetPosition p (ParallelCallback (S (uidCounter w))) t]),
     Normal tt).
Proof. reflexivity. Qed.

(** The loop over the providers calls each of them, in order, and completes
    nothing. *)
Lemma setData_each t ps : forall w,
  exists w', for_each ps (setData t) w = (w', Normal tt) /\
    completions (trace w') = completions (trace w) /\
    called (trace w') = called (trace w) ++ ps.
Proof.
  induction ps as [|p ps IH]; intros w.
  - exists w. by rewrite app_nil_r.
  - cbn [for_each]. unfold bind at 1. rewrite setData_spec.
    edestruct IH as (w' & -> & Hc & Hp). exists w'. split; [done|].
    rewrite Hc, Hp. cbn [trace]. rewrite completions_app, called_app.
    cbn. by rewrite app_nil_r, <- app_assoc.
Qed.

Lemma getPositionParallel_unfold this a w :
  getPositionParallel this a w =
    match _getPositionFromLocalStorage
            (number_or (opt_maximumAge (options_of a)) (maximumAge this)) w with
    | (w', Normal pos) =>
        if truthy pos then cb VNull pos w'
        else (set_requests [];;
              h ← gets heap;
              for_each (h !!! array_or (opt_providers (options_of a)) (providers this))
                       (setData (number_or (opt_providerTimeout (options_of a))
                                           (providerTimeout this)))) w'
    | (w', Throw e) => (w', Throw e)
    end.
Proof.
  unfold getPositionParallel. cbv [mbind M_bind bind].
  destruct (_getPositionFromLocalStorage _ w) as [w' [pos|e]]; [|done].
  by destruct (truthy pos).
Qed.

Lemma parallel_start_settled this a w :
  requests w = [] ->
  settled (completions (trace w)) (start (getPositionParallel this a) w).
Proof.
  intros Hr. unfold start. rewrite getPositionParallel_unfold.
  destruct (read_returns
              (number_or (opt_maximumAge (options_of a)) (maximumAge this)) w)
    as (v & -> & Hv).
  destruct Hv as [-> | (s & _ & ->)]; cbn [truthy position_of].
  - left. unfold_monad. world_simpl.
    match goal with |- context [for_each ?ps (setData ?t) ?w0] =>
      destruct (setData_each t ps w0) as (w' & -> & Hc & _) end.
    cbn [fst]. by rewrite Hc.
  - right. cbn. split; [done|]. rewrite completions_app. by eexists.
Qed.

(** *** C2 *)

(** C2, as stated, fails: two providers are raced, the first one succeeds, so
    the completion callback is invoked and the handle of the second one is
    aborted; the second one calls back all the same, and the completion
    callback is invoked a second time, be it with an error or a position. *)
Lemma late_callback_completes_again :
  completions (trace world_won) = [(VNull, Moscow)] /\
  HandleAbort 2 "ip" ∈ trace world_won /\
  completions (trace (run [(ParallelCallback 2, Reply 3000 (VStr "aborted") VUndefined)]
                          world_won))
    = [(VNull, Moscow); (VStr "aborted", VNull)] /\
  completions (trace (run [(ParallelCallback 2, Reply 3000 VNull garbage)] world_won))
    = [(VNull, Moscow); (VError "TypeError" "Incorrect data", VNull)] /\
  completions (trace (run [(ParallelCallback 2, Reply 3000 VNull Moscow)] world_won))
    = [(VNull, Moscow); (VNull, Moscow)].
Proof.
  repeat split; try (vm_compute; reflexivity).
  vm_compute. do 3 apply list_elem_of_further. apply list_elem_of_here.
Qed.

(** C2, amended: in the parallel strategy a result without an error and with
    numbers for latitude and longitude makes the code abort every other
    request in flight and forget them all, write the cache and invoke the
    completion callback with it.  As long as providers call back only for
    requests in flight (not a second time, not after their handle was
    aborted), the completion callback is invoked at most once per call, and
    once exactly, with that result, when such a result arrives.  The code
    keeps no record of having completed: nothing discards a callback that
    arrives later. *)
Theorem parallel_completes_once_when_abiding this a w events :
  requests w = [] ->
  abiding events (start (getPositionParallel this a) w) = true ->
  let w' := run events (start (getPositionParallel this a) w) in
  (length (completions (trace w')) <= S (length (completions (trace w))))%nat /\
  (forall id r latitude longitude,
     (ParallelCallback id, r) ∈ events ->
     truthy (reply_err r) = false -> numeric (reply_data r) latitude longitude ->
     completions (trace w') = completions (trace w) ++ [(VNull, reply_data r)] /\
     requests w' = []) /\
  (forall w1 id r latitude longitude,
     truthy (reply_err r) = false -> numeric (reply_data r) latitude longitude ->
     requests (deliver (ParallelCallback id) r w1) = [] /\
     trace (deliver (ParallelCallback id) r w1) =
       trace w1 ++ [ProviderCallback (reply_err r) (reply_data r)]
       ++ aborts (others id w1)
       ++ [StorageSetItem "_GeoLocData"
             (join_values "," [VNum latitude; VNum longitude; VNum (of_Z (at_time r))]);
           Completion VNull (reply_data r)]).
Proof.
  intros Hr Hab. cbv zeta.
  pose proof (parallel_start_settled this a w Hr) as Hstart.
  split; [|split].
  - destruct (run_abiding_settled _ _ _ Hstart Hab) as [-> | [_ [c ->]]]; [lia|].
    rewrite length_app. cbn. lia.
  - intros id r la lo Hin He Hd.
    destruct Hstart as [Hc | [Hr0 _]].
    + by apply (run_abiding_success _ id r la lo events _ Hc Hab Hin He Hd).
    + rewrite (abiding_nothing_in_flight _ _ Hr0 Hab) in Hin.
      by apply elem_of_nil in Hin.
  - intros w1 id r la lo He Hd. by apply deliver_parallel_success.
Qed.

Lemma parallel_completes_once_when_abiding_witness :
  abiding race (start (getPositionParallel GeoLoc_default TheCallback) world_two) = true /\
  completions (trace (run race (start (getPositionParallel GeoLoc_default TheCallback)
                                      world_two)))
    = [(VNull, Moscow)].
Proof.
  split; [reflexivity|].
  apply (proj1 (proj2 (parallel_completes_once_when_abiding GeoLoc_default TheCallback
                         world_two race eq_refl eq_refl))
               2%nat (Reply 3000 VNull Moscow) (Finite 5575 (-2)) (Finite 3762 (-2))).
  - apply list_elem_of_further, list_elem_of_here.
  - reflexivity.
  - split; reflexivity.
Defined.

(** *** C10 *)

(** C10: a result whose latitude or longitude is NaN passes the check, which
    only asks for the type number: in both strategies it is written to
    localStorage and handed to the completion callback with a null error. *)
Theorem NaN_position_is_accepted q t id err data latitude longitude w :
  truthy err = false ->
  numeric data latitude longitude ->
  latitude = NaN \/ longitude = NaN ->
  let item := join_values "," [VNum latitude; VNum longitude; VNum (of_Z (clock w))] in
  incorrect_data data w = (w, Normal false) /\
  getPosition_callback q t err data w =
    (World (heap w) (<["_GeoLocData" := item]> (localStorage w)) (clock w)
           (defaultProviders w) (uidCounter w) (requests w)
           (trace w ++ [StorageSetItem "_GeoLocData" item; Completion VNull data]),
     Normal tt) /\
  setData_callback id err data w =
    (World (heap w) (<["_GeoLocData" := item]> (localStorage w)) (clock w)
           (defaultProviders w) (uidCounter w) []
           (trace w ++ aborts (others id w)
                    ++ [StorageSetItem "_GeoLocData" item; Completion VNull data]),
     Normal tt).
Proof.
  intros He Hd _. cbv zeta. split; [by apply incorrect_data_numeric with latitude longitude|].
  split.
  - by rewrite (callback_numeric _ _ _ _ _ _ _ He Hd).
  - by rewrite (parallel_callback_numeric _ _ _ _ _ _ He Hd).
Qed.

Lemma NaN_position_is_accepted_witness :
  getPosition_callback 2%positive (of_Z 10000) VNull nowhere world_queue =
    (World {[ 2%positive := ["ip"; "manual"] ]} {[ "_GeoLocData" := "NaN,37.62,1000" ]}
           1000 1%positive 0 []
           [StorageSetItem "_GeoLocData" "NaN,37.62,1000"; Completion VNull nowhere],
     Normal tt) /\
  setData_callback 1 VNull nowhere world_racing =
    (World {[ 1%positive := ["gps"; "ip"] ]} {[ "_GeoLocData" := "NaN,37.62,1000" ]}
           1000 1%positive 2 []
           [HandleAbort 2 "ip"; StorageSetItem "_GeoLocData" "NaN,37.62,1000";
            Completion VNull nowhere],
     Normal tt).
Proof.
  split.
  - apply (proj1 (proj2 (NaN_position_is_accepted 2%positive (of_Z 10000) 1 VNull nowhere
                           NaN (Finite 3762 (-2)) world_queue eq_refl
                           (conj eq_refl eq_refl) (or_introl eq_refl)))).
  - apply (proj2 (proj2 (NaN_position_is_accepted 2%positive (of_Z 10000) 1 VNull nowhere
                           NaN (Finite 3762 (-2)) world_racing eq_refl
                           (conj eq_refl eq_refl) (or_introl eq_refl)))).
Defined.

(** *** The queue is a copy *)

Lemma next_heap_elsewhere q t w l :
  l <> q -> heap (fst (getPosition_next q t w)) !! l = heap w !! l.
Proof.
  intros Hl. destruct (heap w !!! q) as [|p rest] eqn:Hq.
  - unfold getPosition_next, shift. unfold_monad. by rewrite Hq.
  - rewrite (getPosition_next_cons _ _ _ _ _ Hq). cbn [fst heap].
    by rewrite lookup_insert_ne.
Qed.

Lemma callback_heap_elsewhere q t err data w l :
  l <> q -> heap (fst (getPosition_callback q t err data w)) !! l = heap w !! l.
Proof.
  intros Hl. destruct (truthy err) eqn:He.
  - destruct (heap w !!! q) as [|p rest] eqn:Hq.
    + by rewrite (callback_err_nil _ _ _ _ _ He Hq).
    + rewrite (callback_err_cons _ _ _ _ _ _ _ He Hq). by apply next_heap_elsewhere.
  - destruct (incorrect_data_cases data) as [(la & lo & Hd) | [Hd | [e Hd]]].
    + by rewrite (callback_numeric _ _ _ _ _ _ _ He Hd).
    + destruct (heap w !!! q) as [|p rest] eqn:Hq.
      * by rewrite (callback_malformed_nil _ _ _ _ _ He Hd Hq).
      * rewrite (callback_malformed_cons _ _ _ _ _ _ _ He Hd Hq).
        by apply next_heap_elsewhere.
    + unfold getPosition_callback. rewrite He. by rewrite (bind_throw _ _ _ _ _ (Hd w)).
Qed.

Lemma run_heap_elsewhere q t l replies : forall w,
  l <> q ->
  heap (run (map (fun r => (SequentialCallback q t, r)) replies) w) !! l = heap w !! l.
Proof.
  induction replies as [|r replies IH]; intros w Hl; [done|].
  cbn [map run foldl fst snd]. unfold run in IH. rewrite IH; [|done].
  rewrite deliver_unfold. by rewrite callback_heap_elsewhere.
Qed.

(** The part of C1 that the code keeps: the queue of a call is a new array,
    and nothing the call does, however the providers answer, changes an array
    that was there before, the instance's and the caller's included. *)
Lemma getPosition_leaves_arrays this a w l replies :
  is_Some (heap w !! l) ->
  let q := fresh (dom (heap w)) in
  let t := number_or (opt_providerTimeout (options_of a)) (providerTimeout this) in
  heap (run (map (fun r => (SequentialCallback q t, r)) replies)
            (start (getPosition this a) w)) !! l = heap w !! l.
Proof.
  intros Hl q t.
  assert (l <> q) as Hne.
  { intros ->. apply elem_of_dom in Hl. by apply is_fresh in Hl. }
  rewrite run_heap_elsewhere; [|done].
  unfold start. rewrite getPosition_unfold.
  destruct (read_returns
              (number_or (opt_maximumAge (options_of a)) (maximumAge this)) w)
    as (v & -> & _).
  destruct (truthy v); [done|].
  unfold slice0. unfold_monad. world_simpl. fold q.
  match goal with |- context [getPosition_next q ?t0 ?w0] =>
    rewrite (next_heap_elsewhere q t0 w0 l Hne) end.
  cbn [heap]. by rewrite lookup_insert_ne.
Qed.


(* ===================================================================== *)
(** ** Further properties of the code *)
(* ===================================================================== *)

(** *** The sequential strategy, from the first call to the completion *)

Lemma callback_failed_cons q t r w p rest :
  failed r = true -> heap w !!! q = p :: rest ->
  getPosition_callback q t (reply_err r) (reply_data r) w = getPosition_next q t w.
Proof.
  unfold failed. intros Hf Hq. destruct (truthy (reply_err r)) eqn:He.
  - by apply callback_err_cons with p rest.
  - by apply callback_malformed_cons with p rest.
Qed.

Lemma callback_failed_nil q t r w :
  failed r = true -> heap w !!! q = [] ->
  getPosition_callback q t (reply_err r) (reply_data r) w =
    (after w [Completion (error_of r) VNull], Normal tt).
Proof.
  unfold failed, error_of. intros Hf Hq. destruct (truthy (reply_err r)) eqn:He.
  - by apply callback_err_nil.
  - by apply callback_malformed_nil.
Qed.

(** A reply is a failure, or a position, or it cannot be read. *)
Lemma reply_cases r :
  failed r = true
  \/ (truthy (reply_err r) = false /\
      exists latitude longitude, numeric (reply_data r) latitude longitude)
  \/ readable r = false.
Proof.
  unfold failed, readable, numeric, malformed.
  destruct (truthy (reply_err r)); [by left|].
  destruct (reply_data r) as [| |b|n|s|props|name message]; cbn [get orb];
    try (by right; right); try (by left).
  destruct (assoc "latitude" props) as [| |?|la|?|?|??]; try (by left).
  destruct (assoc "longitude" props) as [| |?|lo|?|?|??]; try (by left).
  right. left. split; [done|]. by exists la, lo.
Qed.

Lemma serve_more fuel answer : forall w w' k,
  serve fuel answer w = Some w' -> serve (fuel + k) answer w = Some w'.
Proof.
  induction fuel as [|fuel IH]; intros w w' k.
  - cbn [serve Nat.add]. destruct (last (trace w)) as [[p c t'| | | |]|] eqn:Hl;
      try discriminate; intros [= <-]; destruct k; cbn [serve]; by rewrite Hl.
  - cbn [serve Nat.add]. destruct (last (trace w)) as [[p c t'| | | |]|]; try done.
    apply IH.
Qed.

(** The providers that fail are gone through one after the other: each is
    called when the one before it has called back, and nothing is stored. *)
Lemma serve_failed_prefix answer q t fails : forall w p nxt rest fuel,
  last (trace w) = Some (ProviderGetPosition p (SequentialCallback q t) t) ->
  heap w !!! q = fails ++ nxt :: rest ->
  (forall x, x ∈ p :: fails -> failed (answer x) = true) ->
  exists w1,
    serve (S (length fails) + fuel) answer w = serve fuel answer w1 /\
    trace w1 = trace w
               ++ [ProviderCallback (reply_err (answer p)) (reply_data (answer p))]
               ++ flat_map (exchange answer q t) fails
               ++ [ProviderGetPosition nxt (SequentialCallback q t) t] /\
    heap w1 !!! q = rest /\
    localStorage w1 = localStorage w.
Proof.
  induction fails as [|f fails IH]; intros w p nxt rest fuel Hlast Hq Hall.
  - cbn [length Nat.add app] in *. rewrite (serve_pending _ _ _ _ _ _ Hlast), deliver_unfold.
    rewrite (callback_failed_cons _ _ _ _ nxt rest); [|apply Hall; by constructor|done].
    rewrite (getPosition_next_cons _ _ _ nxt rest); [|done]. cbn [fst].
    eexists. split; [reflexivity|]. cbn [trace heap localStorage at_clock flat_map].
    rewrite lookup_total_insert_eq, <- app_assoc. done.
  - cbn [length Nat.add app] in *. rewrite (serve_pending _ _ _ _ _ _ Hlast), deliver_unfold.
    rewrite (callback_failed_cons _ _ _ _ f (fails ++ nxt :: rest));
      [|apply Hall; by constructor|done].
    assert (Hn := getPosition_next_cons q t (at_clock w (answer p)) f
                    (fails ++ nxt :: rest) Hq).
    destruct (IH (fst (getPosition_next q t (at_clock w (answer p)))) f nxt rest fuel)
      as (w1 & Hs & Ht & Hh & Hl).
    { rewrite Hn. cbn [fst trace]. apply last_snoc. }
    { rewrite Hn. cbn [fst heap]. apply lookup_total_insert_eq. }
    { intros x Hx. apply Hall. by constructor. }
    exists w1. split; [exact Hs|]. rewrite Ht, Hh, Hl, Hn.
    cbn [fst trace localStorage at_clock flat_map exchange].
    rewrite <- !app_assoc. done.
Qed.

Lemma serve_wins answer q t w p latitude longitude fuel :
  last (trace w) = Some (ProviderGetPosition p (SequentialCallback q t) t) ->
  truthy (reply_err (answer p)) = false ->
  numeric (reply_data (answer p)) latitude longitude ->
  exists w',
    serve (S fuel) answer w = Some w' /\
    trace w' = trace w
               ++ [ProviderCallback (reply_err (answer p)) (reply_data (answer p));
                   StorageSetItem "_GeoLocData"
                     (item_of latitude longitude (at_time (answer p)));
                   Completion VNull (reply_data (answer p))] /\
    heap w' = heap w /\
    localStorage w' =
      <["_GeoLocData" := item_of latitude longitude (at_time (answer p))]> (localStorage w).
Proof.
  intros Hlast He Hd. rewrite (serve_pending _ _ _ _ _ _ Hlast), deliver_unfold.
  rewrite (callback_numeric _ _ _ _ _ _ _ He Hd). cbn [fst].
  eexists. split.
  - eapply serve_completed. unfold stored_and_completed. cbn [trace app].
    match goal with |- context [ ?l ++ [?a; ?b] ] =>
      change (l ++ [a; b]) with (l ++ [a] ++ [b]) end.
    rewrite app_assoc. apply last_snoc.
  - unfold stored_and_completed, item_of.
    cbn [trace heap localStorage clock at_clock app]. by rewrite <- app_assoc.
Qed.

Lemma serve_fails_last answer q t w p fuel :
  last (trace w) = Some (ProviderGetPosition p (SequentialCallback q t) t) ->
  heap w !!! q = [] ->
  failed (answer p) = true ->
  exists w',
    serve (S fuel) answer w = Some w' /\
    trace w' = trace w
               ++ [ProviderCallback (reply_err (answer p)) (reply_data (answer p));
                   Completion (error_of (answer p)) VNull] /\
    heap w' = heap w /\
    localStorage w' = localStorage w.
Proof.
  intros Hlast Hq Hf. rewrite (serve_pending _ _ _ _ _ _ Hlast), deliver_unfold.
  rewrite (callback_failed_nil q t (answer p) (at_clock w (answer p)) Hf Hq). cbn [fst].
  eexists. split.
  - eapply serve_completed. cbn [after trace]. apply last_snoc.
  - cbn [after at_clock trace heap localStorage]. by rewrite <- app_assoc.
Qed.


Lemma read_cached maximumAge w :
  _getPositionFromLocalStorage maximumAge w = (w, Normal (cached maximumAge w)).
Proof.
  unfold cached. destruct (read_returns maximumAge w) as (v & -> & _). done.
Qed.

Lemma cached_null_or_truthy maximumAge w :
  cached maximumAge w = VNull \/ truthy (cached maximumAge w) = true.
Proof.
  unfold cached. destruct (read_returns maximumAge w) as (v & -> & [-> | (s & _ & ->)]);
    [by left | by right].
Qed.

(** A call that misses the cache and has a provider: the queue is a new
    array, the provider at its head is called. *)
Lemma getPosition_miss this a w p rest :
  cached (max_age_of this a) w = VNull ->
  heap w !!! providers this = p :: rest ->
  start (getPosition this a) w =
    (let q := fresh (dom (heap w)) in
     World (<[q := rest]> (<[q := p :: rest]> (heap w))) (localStorage w) (clock w)
           (defaultProviders w) (uidCounter w) (requests w)
           (trace w ++ [ProviderGetPosition p (SequentialCallback q (timeout_of this a))
                                            (timeout_of this a)])).
Proof.
  intros Hc Hq. unfold start. rewrite getPosition_unfold.
  fold (max_age_of this a). rewrite read_cached, Hc. cbn [truthy].
  fold (timeout_of this a). by rewrite (queue_start _ _ _ _ _ Hq).
Qed.

Lemma getPosition_hit this a w :
  truthy (cached (max_age_of this a) w) = true ->
  getPosition this a w =
    (after w [Completion VNull (cached (max_age_of this a) w)], Normal tt).
Proof.
  intros Hc. rewrite getPosition_unfold. fold (max_age_of this a).
  by rewrite read_cached, Hc.
Qed.

Lemma completions_exchanges answer q t ps :
  completions (flat_map (exchange answer q t) ps) = [].
Proof. by induction ps. Qed.

Lemma called_exchanges answer q t ps :
  called (flat_map (exchange answer q t) ps) = ps.
Proof. induction ps as [|p ps IH]; [done|]. cbn. by rewrite <- IH at 2. Qed.

(** A list of providers all fail, or there is a first one that does not. *)
Lemma first_not_failed (answer : provider -> reply) (ps : list provider) :
  (forall x, x ∈ ps -> failed (answer x) = true)
  \/ exists fails p rest,
       ps = fails ++ p :: rest /\
       (forall x, x ∈ fails -> failed (answer x) = true) /\
       failed (answer p) = false.
Proof.
  induction ps as [|p ps IH].
  - left. intros x Hx. by apply elem_of_nil in Hx.
  - destruct (failed (answer p)) eqn:Hp.
    + destruct IH as [Hall | (fails & x & rest & -> & Hf & Hx)].
      * left. intros x Hx. apply elem_of_cons in Hx as [-> | Hx]; [done | by apply Hall].
      * right. exists (p :: fails), x, rest. split; [done|]. split; [|done].
        intros y Hy. apply elem_of_cons in Hy as [-> | Hy]; [done | by apply Hf].
    + right. exists [], p, ps. split; [done|]. split; [|done].
      intros x Hx. by apply elem_of_nil in Hx.
Qed.

(** From the first call on, in a world where a provider is being waited for:
    the run up to the first provider that does not fail. *)
Lemma serve_until_success answer q t fails : forall w tr0 p rest latitude longitude fuel,
  trace w = tr0 ++ [ProviderGetPosition (hd p fails) (SequentialCallback q t) t] ->
  heap w !!! q = tl (fails ++ p :: rest) ->
  (forall x, x ∈ fails -> failed (answer x) = true) ->
  truthy (reply_err (answer p)) = false ->
  numeric (reply_data (answer p)) latitude longitude ->
  exists w',
    serve (S (length fails) + fuel) answer w = Some w' /\
    trace w' =
      tr0 ++ flat_map (exchange answer q t) (fails ++ [p])
      ++ [StorageSetItem "_GeoLocData" (item_of latitude longitude (at_time (answer p)));
          Completion VNull (reply_data (answer p))] /\
    heap w' !!! q = rest /\
    localStorage w' =
      <["_GeoLocData" := item_of latitude longitude (at_time (answer p))]> (localStorage w).
Proof.
  intros w tr0 p rest la lo fuel Htr Hq Hall He Hd.
  assert (Hlast : last (trace w) =
                  Some (ProviderGetPosition (hd p fails) (SequentialCallback q t) t))
    by (rewrite Htr; apply last_snoc).
  destruct fails as [|f fails]; cbn [hd tl app length] in *.
  - destruct (serve_wins answer q t w p la lo fuel Hlast He Hd) as (w' & Hs & Ht & Hh & Hl).
    exists w'. split; [exact Hs|]. rewrite Ht, Hh, Hl, Hq, Htr.
    split; [|done]. unfold exchange. by trace_norm.
  - destruct (serve_failed_prefix answer q t fails w f p rest (S fuel) Hlast Hq)
      as (w1 & Hs1 & Ht1 & Hh1 & Hl1).
    { intros x Hx. by apply Hall. }
    destruct (serve_wins answer q t w1 p la lo fuel) as (w' & Hs & Ht & Hh & Hl);
      [rewrite Ht1, !app_assoc; apply last_snoc | done | done |].
    exists w'. split.
    { replace (S (S (length fails)) + fuel)%nat with (S (length fails) + S fuel)%nat by lia.
      by rewrite Hs1. }
    rewrite Ht, Hh, Hl, Hl1, Hh1, Ht1, Htr. split; [|done].
    cbn [flat_map]. rewrite flat_map_app. unfold exchange at 1 3. by trace_norm.
Qed.

Lemma serve_until_exhausted answer q t ps : forall w tr0 p fuel,
  trace w = tr0 ++ [ProviderGetPosition p (SequentialCallback q t) t] ->
  heap w !!! q = ps ->
  (forall x, x ∈ p :: ps -> failed (answer x) = true) ->
  exists w',
    serve (S (length ps) + fuel) answer w = Some w' /\
    trace w' =
      tr0 ++ flat_map (exchange answer q t) (p :: ps)
      ++ [Completion (error_of (answer (default p (last ps)))) VNull] /\
    heap w' !!! q = [] /\
    localStorage w' = localStorage w.
Proof.
  intros w tr0 p fuel Htr Hq Hall.
  assert (Hlast : last (trace w) =
                  Some (ProviderGetPosition p (SequentialCallback q t) t))
    by (rewrite Htr; apply last_snoc).
  destruct ps as [|x ps _] using rev_ind.
  - destruct (serve_fails_last answer q t w p fuel Hlast Hq) as (w' & Hs & Ht & Hh & Hl).
    { apply Hall. by constructor. }
    exists w'. split; [exact Hs|]. rewrite Ht, Hh, Hl, Hq, Htr.
    split; [|done]. cbn [last default]. unfold exchange. by trace_norm.
  - destruct (serve_failed_prefix answer q t ps w p x [] (S fuel) Hlast Hq)
      as (w1 & Hs1 & Ht1 & Hh1 & Hl1).
    { intros y Hy. apply Hall. apply elem_of_cons in Hy as [-> | Hy]; [by constructor|].
      constructor. apply elem_of_app. by left. }
    destruct (serve_fails_last answer q t w1 x fuel) as (w' & Hs & Ht & Hh & Hl);
      [rewrite Ht1, !app_assoc; apply last_snoc | done | |].
    { apply Hall. constructor. apply elem_of_app. right. by constructor. }
    exists w'. split.
    { rewrite length_app. cbn [length].
      replace (S (length ps + 1) + fuel)%nat with (S (length ps) + S fuel)%nat by lia.
      by rewrite Hs1. }
    rewrite Ht, Hh, Hl, Hl1, Hh1, Ht1, Htr, last_snoc. split; [|done].
    cbn [flat_map default]. rewrite flat_map_app. unfold exchange at 1 3. by trace_norm.
Qed.


(** X1: a sequential call that misses the cache goes through the providers of
    the instance up to the first one that answers with numbers: the ones
    before it, which all failed, and it are called in turn, each after the one
    before has called back; its result is stored with the time of its reply
    and handed to the completion callback, once; the providers after it stay
    in the queue and are never called. *)
Theorem getPosition_first_success_wins this a w answer fails p rest latitude longitude :
  cached (max_age_of this a) w = VNull ->
  heap w !!! providers this = fails ++ p :: rest ->
  (forall x, x ∈ fails -> failed (answer x) = true) ->
  truthy (reply_err (answer p)) = false ->
  numeric (reply_data (answer p)) latitude longitude ->
  let q := fresh (dom (heap w)) in
  let t := timeout_of this a in
  let item := item_of latitude longitude (at_time (answer p)) in
  exists w',
    serve (length (fails ++ p :: rest)) answer (start (getPosition this a) w) = Some w' /\
    trace w' = trace w ++ flat_map (exchange answer q t) (fails ++ [p])
               ++ [StorageSetItem "_GeoLocData" item;
                   Completion VNull (reply_data (answer p))] /\
    heap w' !!! q = rest /\
    localStorage w' = <["_GeoLocData" := item]> (localStorage w).
Proof.
  intros Hc Hq Hall He Hd q t item.
  assert (Hq' : heap w !!! providers this = hd p fails :: tl (fails ++ p :: rest))
    by (rewrite Hq; by destruct fails).
  rewrite (getPosition_miss _ _ _ _ _ Hc Hq'). fold q t.
  rewrite length_app. cbn [length].
  replace (length fails + S (length rest))%nat with (S (length fails) + length rest)%nat
    by lia.
  match goal with |- context [serve _ answer ?w1] =>
    destruct (serve_until_success answer q t fails w1 (trace w) p rest latitude longitude
                (length rest)) as (w' & Hs & Ht & Hh & Hl); try done end.
  { cbn [heap]. apply lookup_total_insert_eq. }
  by exists w'.
Qed.

Lemma getPosition_first_success_wins_witness :
  exists w',
    serve 2 gps_refuses (start (getPosition GeoLoc_default TheCallback) world_two) = Some w' /\
    trace w' =
      [ProviderGetPosition "gps" (SequentialCallback 2%positive (of_Z 10000)) (of_Z 10000);
       ProviderCallback (VStr "denied") VUndefined;
       ProviderGetPosition "ip" (SequentialCallback 2%positive (of_Z 10000)) (of_Z 10000);
       ProviderCallback VNull (VObject [("latitude", VNum (Finite 1 0));
                                        ("longitude", VNum (Finite 2 0))]);
       StorageSetItem "_GeoLocData" "1,2,3000";
       Completion VNull (VObject [("latitude", VNum (Finite 1 0));
                                  ("longitude", VNum (Finite 2 0))])] /\
    heap w' !!! 2%positive = [] /\
    localStorage w' = <["_GeoLocData" := "1,2,3000"]> ∅.
Proof.
  apply (getPosition_first_success_wins GeoLoc_default TheCallback world_two gps_refuses
           ["gps"] "ip" [] (Finite 1 0) (Finite 2 0)).
  - reflexivity.
  - reflexivity.
  - intros x Hx. apply list_elem_of_singleton in Hx as ->. reflexivity.
  - reflexivity.
  - split; reflexivity.
Defined.

(** X2: a sequential call that misses the cache and whose providers all fail,
    by an error or by a latitude or longitude that is not a number, calls
    them all, in order, and invokes the completion callback once, with null
    for position and the failure of the last provider: its error, or the
    TypeError of the code; nothing is stored and the queue ends empty. *)
Theorem getPosition_all_fail this a w answer p rest :
  cached (max_age_of this a) w = VNull ->
  heap w !!! providers this = p :: rest ->
  (forall x, x ∈ p :: rest -> failed (answer x) = true) ->
  let q := fresh (dom (heap w)) in
  let t := timeout_of this a in
  exists w',
    serve (length (p :: rest)) answer (start (getPosition this a) w) = Some w' /\
    trace w' = trace w ++ flat_map (exchange answer q t) (p :: rest)
               ++ [Completion (error_of (answer (default p (last rest)))) VNull] /\
    heap w' !!! q = [] /\
    localStorage w' = localStorage w.
Proof.
  intros Hc Hq Hall q t.
  rewrite (getPosition_miss _ _ _ _ _ Hc Hq). fold q t. cbn [length].
  replace (S (length rest)) with (S (length rest) + 0)%nat by lia.
  match goal with |- context [serve _ answer ?w1] =>
    destruct (serve_until_exhausted answer q t rest w1 (trace w) p 0)
      as (w' & Hs & Ht & Hh & Hl); try done end.
  { cbn [heap]. apply lookup_total_insert_eq. }
  by exists w'.
Qed.

Lemma getPosition_all_fail_witness :
  exists w',
    serve 2 ip_garbles (start (getPosition GeoLoc_default TheCallback) world_two) = Some w' /\
    trace w' =
      [ProviderGetPosition "gps" (SequentialCallback 2%positive (of_Z 10000)) (of_Z 10000);
       ProviderCallback (VStr "denied") VUndefined;
       ProviderGetPosition "ip" (SequentialCallback 2%positive (of_Z 10000)) (of_Z 10000);
       ProviderCallback VNull garbage;
       Completion (VError "TypeError" "Incorrect data") VNull] /\
    heap w' !!! 2%positive = [] /\
    localStorage w' = ∅.
Proof.
  apply (getPosition_all_fail GeoLoc_default TheCallback world_two ip_garbles "gps" ["ip"]).
  - reflexivity.
  - reflexivity.
  - intros x Hx. apply elem_of_cons in Hx as [-> | Hx]; [reflexivity|].
    apply list_elem_of_singleton in Hx as ->. reflexivity.
Defined.

(** X3: a sequential call on an instance with at least one provider, whose
    providers each call back once with something the callback can read (an
    error, or a data object), ends within as many replies as there are
    providers, and by then the completion callback has been invoked exactly
    once, whether the answer came from the cache or from the providers. *)
Theorem getPosition_completes_once this a w answer :
  heap w !!! providers this <> [] ->
  (forall x, x ∈ heap w !!! providers this -> readable (answer x) = true) ->
  exists w' c,
    serve (length (heap w !!! providers this)) answer (start (getPosition this a) w)
      = Some w' /\
    completions (trace w') = completions (trace w) ++ [c].
Proof.
  intros Hne Hread.
  destruct (cached_null_or_truthy (max_age_of this a) w) as [Hc | Hc].
  - destruct (first_not_failed answer (heap w !!! providers this))
      as [Hall | (fails & p & rest & Hq & Hf & Hp)].
    + destruct (heap w !!! providers this) as [|p rest] eqn:Hq; [done|].
      rewrite (getPosition_miss _ _ _ _ _ Hc Hq). cbn [length].
      replace (S (length rest)) with (S (length rest) + 0)%nat by lia.
      match goal with |- context [serve _ answer ?w1] =>
        destruct (serve_until_exhausted answer (fresh (dom (heap w))) (timeout_of this a)
                    rest w1 (trace w) p 0) as (w' & Hs & Ht & _); try done end.
      { cbn [heap]. apply lookup_total_insert_eq. }
      exists w'. eexists. split; [exact Hs|].
      rewrite Ht, !completions_app, completions_exchanges. reflexivity.
    + destruct (reply_cases (answer p)) as [Hfail | [(He & la & lo & Hd) | Hr]].
      * by rewrite Hfail in Hp.
      * assert (Hq' : heap w !!! providers this = hd p fails :: tl (fails ++ p :: rest))
          by (rewrite Hq; by destruct fails).
        rewrite (getPosition_miss _ _ _ _ _ Hc Hq'), Hq, length_app. cbn [length].
        replace (length fails + S (length rest))%nat
          with (S (length fails) + length rest)%nat by lia.
        match goal with |- context [serve _ answer ?w1] =>
          destruct (serve_until_success answer (fresh (dom (heap w))) (timeout_of this a)
                      fails w1 (trace w) p rest la lo (length rest))
            as (w' & Hs & Ht & _); try done end.
        { cbn [heap]. apply lookup_total_insert_eq. }
        exists w'. eexists. split; [exact Hs|].
        rewrite Ht, !completions_app, completions_exchanges. reflexivity.
      * rewrite Hread in Hr; [done|]. rewrite Hq. apply elem_of_app. right. by constructor.
  - unfold start. rewrite (getPosition_hit _ _ _ Hc). cbn [fst].
    eexists _, _. split.
    + eapply serve_completed. cbn [after trace]. apply last_snoc.
    + cbn [after trace]. by rewrite completions_app.
Qed.

Lemma getPosition_completes_once_witness :
  exists w' c,
    serve 2 gps_refuses (start (getPosition GeoLoc_default TheCallback) world_two) = Some w' /\
    completions (trace w') = [] ++ [c].
Proof.
  apply (getPosition_completes_once GeoLoc_default TheCallback world_two gps_refuses).
  - discriminate.
  - intros x Hx. apply elem_of_cons in Hx as [-> | Hx]; [reflexivity|].
    apply list_elem_of_singleton in Hx as ->. reflexivity.
Defined.


(** *** A callback without error and without data *)

Lemma incorrect_data_unreadable r w :
  readable r = false ->
  truthy (reply_err r) = false /\
  incorrect_data (reply_data r) w =
    (w, Throw (VError "TypeError" "Cannot read property latitude")).
Proof.
  unfold readable. destruct (truthy (reply_err r)); [done|].
  destruct (reply_data r); try done; intros _; split; reflexivity.
Qed.

Lemma serve_after_callback fuel answer w err data :
  last (trace w) = Some (ProviderCallback err data) ->
  serve fuel answer w = Some w.
Proof. intros H. destruct fuel; cbn [serve]; by rewrite H. Qed.

(** X4: when a provider calls back with no error and with [undefined] or
    [null] for data, the callback throws a TypeError back into the provider.
    In the sequential strategy nothing else happens: the queue keeps its
    providers, none of them is called, the completion callback is not invoked
    and the call is over.  In the parallel strategy the request leaves
    [requests] and nothing else happens either, not even a completion when it
    was the last request. *)
Theorem callback_without_data_throws q t id r w :
  readable r = false ->
  getPosition_callback q t (reply_err r) (reply_data r) w =
    (w, Throw (VError "TypeError" "Cannot read property latitude")) /\
  setData_callback id (reply_err r) (reply_data r) w =
    (with_requests w (others id w),
     Throw (VError "TypeError" "Cannot read property latitude")) /\
  deliver (SequentialCallback q t) r w = at_clock w r /\
  (forall fuel answer, serve fuel answer (deliver (SequentialCallback q t) r w)
                       = Some (at_clock w r)) /\
  deliver (ParallelCallback id) r w = with_requests (at_clock w r) (others id w).
Proof.
  intros Hr.
  assert (Hseq : forall w0, getPosition_callback q t (reply_err r) (reply_data r) w0 =
                   (w0, Throw (VError "TypeError" "Cannot read property latitude"))).
  { intros w0. destruct (incorrect_data_unreadable r w0 Hr) as [He Hd].
    unfold getPosition_callback. rewrite He. by rewrite (bind_throw _ _ _ _ _ Hd). }
  assert (Hpar : forall w0, setData_callback id (reply_err r) (reply_data r) w0 =
                   (with_requests w0 (others id w0),
                    Throw (VError "TypeError" "Cannot read property latitude"))).
  { intros w0. destruct (incorrect_data_unreadable r w0 Hr) as [He _].
    apply parallel_callback_throws; [done|].
    intros w1. by destruct (incorrect_data_unreadable r w1 Hr). }
  split; [apply Hseq|]. split; [apply Hpar|].
  rewrite !deliver_unfold, Hseq, Hpar. cbn [fst]. split; [done|]. split; [|done].
  intros fuel answer. eapply serve_after_callback. cbn [at_clock trace]. apply last_snoc.
Qed.

Lemma callback_without_data_throws_witness :
  deliver (SequentialCallback 2%positive (of_Z 10000)) silent world_queue
    = at_clock world_queue silent /\
  deliver (ParallelCallback 2) silent
          (deliver (ParallelCallback 1) silent world_racing)
    = with_requests (at_clock (at_clock world_racing silent) silent) [].
Proof.
  split.
  - apply (callback_without_data_throws 2%positive (of_Z 10000) 1 silent world_queue eq_refl).
  - rewrite (proj2 (proj2 (proj2 (proj2
              (callback_without_data_throws 2%positive (of_Z 10000) 1 silent
                 world_racing eq_refl))))).
    apply (callback_without_data_throws 2%positive (of_Z 10000) 2 silent
             (with_requests (at_clock world_racing silent) (others 1 world_racing)) eq_refl).
Defined.


(** *** The parallel strategy, from the first call on *)

Lemma put_request_last id p (r : list (nat * provider)) :
  (forall e, e ∈ r -> (fst e < id)%nat) ->
  put_request id p r = r ++ [(id, p)].
Proof.
  induction r as [|[i x] r IH]; intros Hlt; [done|].
  cbn [put_request app].
  assert (i < id)%nat as Hi by (apply (Hlt (i, x)); by constructor).
  destruct (Nat.ltb_spec id i); [lia|].
  destruct (Nat.eqb_spec id i); [lia|].
  rewrite IH; [done|]. intros e He. apply Hlt. by constructor.
Qed.

Lemma setData_all t ps : forall w,
  (forall e, e ∈ requests w -> (fst e <= uidCounter w)%nat) ->
  for_each ps (setData t) w =
    (World (heap w) (localStorage w) (clock w) (defaultProviders w)
           (uidCounter w + length ps)
           (requests w ++ zip (ids_after (uidCounter w) (length ps)) ps)
           (trace w ++ calls_to t (uidCounter w) ps),
     Normal tt).
Proof.
  unfold calls_to, ids_after.
  induction ps as [|p ps IH]; intros w Hle.
  - cbn. rewrite Nat.add_0_r, !app_nil_r. by destruct w.
  - cbn [for_each]. unfold bind at 1. rewrite setData_spec.
    rewrite put_request_last; [|intros e He; specialize (Hle e He); lia].
    rewrite IH.
    + cbn [heap localStorage clock defaultProviders uidCounter requests trace length seq
           zip_with]. rewrite <- !app_assoc. cbn [app].
      by replace (S (uidCounter w) + length ps)%nat with (uidCounter w + S (length ps))%nat
        by lia.
    + cbn [requests uidCounter]. intros e He.
      apply elem_of_app in He as [He | He].
      * specialize (Hle e He). lia.
      * apply list_elem_of_singleton in He as ->. cbn. lia.
Qed.

Lemma completions_calls_to t uid ps : completions (calls_to t uid ps) = [].
Proof.
  unfold calls_to. generalize (ids_after uid (length ps)).
  induction ps as [|p ps IH]; intros [|i ids]; cbn; done.
Qed.

Lemma getPositionParallel_miss this a w :
  cached (max_age_of this a) w = VNull ->
  let ps := heap w !!! array_or (opt_providers (options_of a)) (providers this) in
  getPositionParallel this a w =
    (World (heap w) (localStorage w) (clock w) (defaultProviders w)
           (uidCounter w + length ps)
           (zip (ids_after (uidCounter w) (length ps)) ps)
           (trace w ++ calls_to (timeout_of this a) (uidCounter w) ps),
     Normal tt).
Proof.
  intros Hc ps. rewrite getPositionParallel_unfold.
  fold (max_age_of this a). rewrite read_cached, Hc. cbn [truthy].
  fold (timeout_of this a). unfold_monad. world_simpl. fold ps.
  rewrite setData_all; [done|].
  cbn [requests]. intros e He. by apply elem_of_nil in He.
Qed.

Lemma getPositionParallel_hit this a w :
  truthy (cached (max_age_of this a) w) = true ->
  getPositionParallel this a w =
    (after w [Completion VNull (cached (max_age_of this a) w)], Normal tt).
Proof.
  intros Hc. rewrite getPositionParallel_unfold. fold (max_age_of this a).
  by rewrite read_cached, Hc.
Qed.

(** X5: a parallel call that misses the cache calls every provider of the
    list in force (the call's [options.providers], else the instance's), in
    the order of the list and in the same turn, each with the timeout in
    force; the handles get the ids that follow [uidCounter], one after the
    other, and [requests] holds exactly them; nothing is completed, stored or
    changed in any array. *)
Theorem getPositionParallel_calls_all this a w :
  cached (max_age_of this a) w = VNull ->
  let ps := heap w !!! array_or (opt_providers (options_of a)) (providers this) in
  let w' := fst (getPositionParallel this a w) in
  snd (getPositionParallel this a w) = Normal tt /\
  trace w' = trace w ++ calls_to (timeout_of this a) (uidCounter w) ps /\
  called (trace w') = called (trace w) ++ ps /\
  completions (trace w') = completions (trace w) /\
  requests w' = zip (ids_after (uidCounter w) (length ps)) ps /\
  NoDup (map fst (requests w')) /\
  uidCounter w' = (uidCounter w + length ps)%nat /\
  heap w' = heap w /\ localStorage w' = localStorage w.
Proof.
  intros Hc ps w'. subst w'. rewrite (getPositionParallel_miss _ _ _ Hc). fold ps.
  cbn [fst snd trace requests uidCounter heap localStorage].
  assert (Hlen : length (ids_after (uidCounter w) (length ps)) = length ps)
    by apply length_seq.
  repeat split.
  - rewrite called_app. f_equal. unfold calls_to.
    generalize (ids_after (uidCounter w) (length ps)) Hlen. clear.
    induction ps as [|p ps IH]; intros [|i ids] Hlen; try done.
    cbn. f_equal. apply IH. by injection Hlen.
  - rewrite completions_app. unfold calls_to.
    generalize (ids_after (uidCounter w) (length ps)). clear.
    induction ps as [|p ps IH]; intros [|i ids]; cbn; try by rewrite app_nil_r.
    apply IH.
  - rewrite fst_zip; [|lia]. apply NoDup_ListNoDup, List.seq_NoDup.
Qed.

Lemma getPositionParallel_calls_all_witness :
  let w' := fst (getPositionParallel GeoLoc_default
                   (TheOptions (Options None None (Some 2%positive))) world_override) in
  trace w' = [ProviderGetPosition "ip" (ParallelCallback 1) (of_Z 10000)] /\
  requests w' = [(1%nat, "ip")].
Proof.
  pose proof (getPositionParallel_calls_all GeoLoc_default
                (TheOptions (Options None None (Some 2%positive))) world_override eq_refl)
    as (_ & Ht & _ & _ & Hr & _).
  split; [exact Ht | exact Hr].
Defined.


(** X6: a parallel call that misses the cache while the list of providers in
    force is empty returns without calling anything, and the completion
    callback is not invoked, then or later: no request is in flight, so no
    provider has a callback to invoke. *)
Theorem getPositionParallel_without_providers this a w events :
  cached (max_age_of this a) w = VNull ->
  heap w !!! array_or (opt_providers (options_of a)) (providers this) = [] ->
  getPositionParallel this a w = (with_requests w [], Normal tt) /\
  (abiding events (start (getPositionParallel this a) w) = true -> events = []).
Proof.
  intros Hc Hps.
  assert (getPositionParallel this a w = (with_requests w [], Normal tt)) as Heq.
  { rewrite (getPositionParallel_miss _ _ _ Hc), Hps. unfold with_requests, calls_to.
    cbn. by rewrite Nat.add_0_r, app_nil_r. }
  split; [exact Heq|]. unfold start. rewrite Heq. cbn [fst].
  by apply abiding_nothing_in_flight.
Qed.

Lemma getPositionParallel_without_providers_witness :
  getPositionParallel GeoLoc_default TheCallback world_none
    = (with_requests world_none [], Normal tt).
Proof.
  apply (getPositionParallel_without_providers GeoLoc_default TheCallback world_none []
           eq_refl eq_refl).
Defined.

(** *** The parallel strategy when every provider fails *)

Lemma fst_others id w :
  map fst (others id w) = filter (fun i => i <> id) (map fst (requests w)).
Proof.
  unfold others. induction (requests w) as [|[i p] r IH]; [done|].
  cbn [map]. rewrite !filter_cons. cbn [fst]. destruct (decide (i <> id)); cbn; by rewrite IH.
Qed.

Lemma filter_other_ids (id : nat) (ids : list nat) :
  id ∉ ids -> filter (fun i => i <> id) ids = ids.
Proof.
  induction ids as [|i ids IH]; intros Hnotin; [done|].
  apply not_elem_of_cons in Hnotin as [Hne Hnotin].
  rewrite filter_cons_True; [|done]. by rewrite IH.
Qed.

Lemma others_remaining id ids w :
  NoDup (map fst (requests w)) ->
  id :: ids ≡ₚ map fst (requests w) ->
  ids ≡ₚ map fst (others id w) /\ NoDup (map fst (others id w)).
Proof.
  intros Hnd Hperm. rewrite fst_others. split.
  - rewrite <- Hperm. rewrite filter_cons_False; [|by intros H].
    assert (NoDup (id :: ids)) as Hnd' by by rewrite Hperm.
    apply NoDup_cons in Hnd' as [Hnotin _].
    by rewrite filter_other_ids.
  - by apply NoDup_filter.
Qed.

Lemma deliver_parallel_failed id r w :
  failed r = true ->
  deliver (ParallelCallback id) r w =
    after (with_requests (at_clock w r) (others id w))
          (completion_if_last (others id w) (error_of r)).
Proof.
  unfold failed, error_of. intros Hf. rewrite deliver_unfold.
  destruct (truthy (reply_err r)) eqn:He.
  - by rewrite (parallel_callback_err _ _ _ _ He).
  - by rewrite (parallel_callback_malformed _ _ _ _ He Hf).
Qed.

Lemma run_all_failed replies : forall w e_last,
  NoDup (map fst (requests w)) ->
  map fst replies ≡ₚ map fst (requests w) ->
  (forall e, e ∈ replies -> failed (snd e) = true) ->
  last replies = Some e_last ->
  completions (trace (run (parallel_events replies) w))
    = completions (trace w) ++ [(error_of (snd e_last), VNull)] /\
  requests (run (parallel_events replies) w) = [] /\
  localStorage (run (parallel_events replies) w) = localStorage w.
Proof.
  induction replies as [|[id r] replies IH]; intros w e_last Hnd Hperm Hall Hlast; [done|].
  cbn [map fst] in Hperm.
  destruct (others_remaining id (map fst replies) w Hnd Hperm) as [Hperm' Hnd'].
  cbn [parallel_events map run foldl fst snd].
  rewrite deliver_parallel_failed; [|apply (Hall (id, r)); by constructor].
  destruct replies as [|e replies].
  - cbn [last] in Hlast. injection Hlast as <-. cbn [map] in Hperm'.
    apply Permutation_nil_l in Hperm'. symmetry in Hperm'.
    apply fmap_nil_inv in Hperm'. rewrite Hperm'.
    cbn [map foldl completion_if_last after with_requests at_clock trace requests
         localStorage snd].
    rewrite !completions_app, completions_callback, app_nil_r. done.
  - assert (others id w <> []) as Hne.
    { intros Heq. rewrite Heq in Hperm'. by apply Permutation_nil_r in Hperm'. }
    destruct (others id w) as [|o os] eqn:Ho; [done|].
    cbn [completion_if_last]. rewrite last_cons_cons in Hlast.
    set (w1 := after (with_requests (at_clock w r) (o :: os)) []).
    destruct (IH w1 e_last) as (Hc & Hr & Hl); try done.
    { intros x Hx. apply Hall. by constructor. }
    unfold run, parallel_events in Hc, Hr, Hl. rewrite Hc, Hr, Hl.
    subst w1. cbn [after with_requests at_clock trace localStorage].
    rewrite !completions_app, completions_callback. cbn. by rewrite !app_nil_r.
Qed.

(** X7: a parallel call that misses the cache and whose providers all fail,
    each calling back once, in whatever order, invokes the completion callback
    exactly once, when the last of them has called back, with null and the
    failure of that one: its error, or the TypeError of the code.  Nothing is
    stored and no request is left. *)
Theorem getPositionParallel_all_fail this a w replies e_last :
  cached (max_age_of this a) w = VNull ->
  let ps := heap w !!! array_or (opt_providers (options_of a)) (providers this) in
  map fst replies ≡ₚ ids_after (uidCounter w) (length ps) ->
  (forall e, e ∈ replies -> failed (snd e) = true) ->
  last replies = Some e_last ->
  let w' := run (parallel_events replies) (start (getPositionParallel this a) w) in
  completions (trace w') = completions (trace w) ++ [(error_of (snd e_last), VNull)] /\
  requests w' = [] /\
  localStorage w' = localStorage w.
Proof.
  intros Hc ps Hperm Hall Hlast w'. subst w'.
  unfold start. rewrite (getPositionParallel_miss _ _ _ Hc). fold ps. cbn [fst].
  assert (Hids : map fst (zip (ids_after (uidCounter w) (length ps)) ps)
                 = ids_after (uidCounter w) (length ps)).
  { apply fst_zip. unfold ids_after. rewrite length_seq. lia. }
  match goal with |- context [run _ ?w1] =>
    destruct (run_all_failed replies w1 e_last) as (Hcm & Hr & Hl) end; try done.
  - cbn [requests]. rewrite Hids. apply NoDup_ListNoDup, List.seq_NoDup.
  - cbn [requests]. by rewrite Hids.
  - rewrite Hcm, Hr, Hl. cbn [trace localStorage]. split; [|done].
    by rewrite completions_app, completions_calls_to, app_nil_r.
Qed.

Lemma getPositionParallel_all_fail_witness :
  completions (trace (run (parallel_events both_fail)
                          (start (getPositionParallel GeoLoc_default TheCallback) world_two)))
    = [(VStr "denied", VNull)].
Proof.
  apply (getPositionParallel_all_fail GeoLoc_default TheCallback world_two both_fail
           (1%nat, Reply 3000 (VStr "denied") VUndefined) eq_refl).
  - apply perm_swap.
  - intros e He. apply elem_of_cons in He as [-> | He]; [reflexivity|].
    apply list_elem_of_singleton in He as ->. reflexivity.
  - reflexivity.
Defined.


(** *** Aborting *)

(** X8: [abortAllRequests] calls [abort] on the handle of every request in
    [requests], once each and in the order of the ids, and leaves [requests]
    empty; it changes nothing else.  When a provider wins the race, the
    handles aborted are those of the requests in flight other than its own:
    the winner is not aborted. *)
Theorem abortAllRequests_aborts_the_others id r latitude longitude w :
  abortAllRequests w =
    (World (heap w) (localStorage w) (clock w) (defaultProviders w) (uidCounter w) []
           (trace w ++ map (fun e => HandleAbort (fst e) (snd e)) (requests w)),
     Normal tt) /\
  (truthy (reply_err r) = false -> numeric (reply_data r) latitude longitude ->
   forall i p,
     HandleAbort i p ∈ drop (length (trace w)) (trace (deliver (ParallelCallback id) r w))
     <-> (i, p) ∈ requests w /\ i <> id).
Proof.
  split; [by rewrite abortAllRequests_spec|].
  intros He Hd i p.
  destruct (deliver_parallel_success id r latitude longitude w He Hd) as [_ ->].
  rewrite drop_app_length. unfold aborts, others.
  split.
  - intros Hin. apply elem_of_cons in Hin as [Hin | Hin]; [done|].
    apply elem_of_app in Hin as [Hin | Hin].
    + apply list_elem_of_fmap in Hin as ([i' p'] & [= -> ->] & Hin).
      by apply list_elem_of_filter in Hin as [Hne Hin].
    + apply elem_of_cons in Hin as [Hin | Hin]; [done|].
      by apply list_elem_of_singleton in Hin.
  - intros [Hin Hne]. apply list_elem_of_further, elem_of_app. left.
    apply list_elem_of_fmap. exists (i, p). split; [done|].
    by apply list_elem_of_filter.
Qed.

Lemma abortAllRequests_aborts_the_others_witness :
  HandleAbort 2 "ip" ∈ drop (length (trace world_racing))
    (trace (deliver (ParallelCallback 1) (Reply 2000 VNull Moscow) world_racing)).
Proof.
  apply (proj2 (abortAllRequests_aborts_the_others 1 (Reply 2000 VNull Moscow)
                  (Finite 5575 (-2)) (Finite 3762 (-2)) world_racing)
               eq_refl (conj eq_refl eq_refl) 2%nat "ip").
  split; [|discriminate]. apply list_elem_of_further, list_elem_of_here.
Defined.

(** *** The cache in the parallel strategy *)

Lemma cached_record maximumAge w s :
  stored w = Some s -> s <> "" ->
  cached maximumAge w = if le (age_of w s) maximumAge then position_of s else VNull.
Proof.
  intros Hs Hne. unfold cached. rewrite (read_item _ _ _ Hs).
  assert (String.eqb s "" = false) as -> by by apply String.eqb_neq. done.
Qed.

(** X9: the parallel strategy consults the cache as the sequential one does.
    A record whose age is at most the maximum age in force, the boundary
    included, is answered from the cache: one completion with the cached
    position, no provider called, no request made, exactly what [getPosition]
    does in the same world.  A record strictly older is passed over and every
    provider is called. *)
Theorem getPositionParallel_cache_boundary this a w s :
  stored w = Some s -> s <> "" ->
  (le (age_of w s) (max_age_of this a) = true ->
     getPositionParallel this a w
       = (after w [Completion VNull (position_of s)], Normal tt) /\
     getPositionParallel this a w = getPosition this a w) /\
  (gt (age_of w s) (max_age_of this a) = true ->
     called (trace (start (getPositionParallel this a) w))
       = called (trace w)
         ++ heap w !!! array_or (opt_providers (options_of a)) (providers this) /\
     completions (trace (start (getPositionParallel this a) w)) = completions (trace w)).
Proof.
  intros Hs Hne. pose proof (cached_record (max_age_of this a) w s Hs Hne) as Hc. split.
  - intros Hle. rewrite Hle in Hc.
    rewrite getPositionParallel_hit, getPosition_hit, Hc; by rewrite ?Hc.
  - intros Hgt. rewrite (gt_not_le _ _ Hgt) in Hc. unfold start.
    rewrite (getPositionParallel_miss _ _ _ Hc). cbn [fst trace].
    rewrite called_app, completions_app, completions_calls_to, app_nil_r.
    split; [|done]. f_equal. unfold calls_to.
    set (ps := heap w !!! _).
    assert (Hlen : length (ids_after (uidCounter w) (length ps)) = length ps)
      by apply length_seq.
    generalize (ids_after (uidCounter w) (length ps)) Hlen. clear.
    induction ps as [|p ps IH]; intros [|i ids] Hlen; try done.
    cbn. f_equal. apply IH. by injection Hlen.
Qed.

Lemma getPositionParallel_cache_boundary_witness :
  getPositionParallel GeoLoc_default TheCallback world_boundary
    = (after world_boundary [Completion VNull (position_of "55.75,37.5,1000")], Normal tt).
Proof.
  apply (proj1 (getPositionParallel_cache_boundary GeoLoc_default TheCallback world_boundary
                  "55.75,37.5,1000" eq_refl ltac:(discriminate))).
  reflexivity.
Defined.

(** *** Configuration *)

(** The cache read depends on the stored record and on the clock only. *)
Lemma cached_ext maximumAge w0 w :
  localStorage w0 = localStorage w -> clock w0 = clock w ->
  cached maximumAge w0 = cached maximumAge w.
Proof.
  intros Hl Hk. unfold cached.
  assert (stored w0 = stored w) as Hs by (unfold stored; by rewrite Hl).
  destruct (stored w) as [s|] eqn:Hw.
  - rewrite (read_item _ _ _ Hs), (read_item _ _ _ Hw). unfold age_of. by rewrite Hk.
  - by rewrite (read_no_item _ _ Hs), (read_no_item _ _ Hw).
Qed.

Lemma number_or_truthy o d : truthy (VNum d) = true -> truthy (VNum (number_or o d)) = true.
Proof.
  intros Hd. unfold number_or. destruct o as [n|]; [|done].
  by destruct (truthy (VNum n)) eqn:Hn.
Qed.

(** X10: [new GeoLoc(options)] changes nothing in the world and gives an
    instance whose providers are [options.providers], else the default list
    of the moment, and whose timeout and maximum age are those of the options
    unless they are missing, 0 or NaN, in which case they are 10000 and
    86400000.  So the timeout and the maximum age in force for any call on
    the instance are never 0 and never NaN: a maximum age of 0 does not turn
    the cache off, in the constructor or in a call. *)
Theorem new_GeoLoc_settings options w :
  exists this,
    new_GeoLoc options w = (w, Normal this) /\
    providers this = array_or (opt_providers options) (defaultProviders w) /\
    providerTimeout this = number_or (opt_providerTimeout options) (of_Z 10000) /\
    maximumAge this = number_or (opt_maximumAge options) (of_Z 86400000) /\
    (forall a, truthy (VNum (max_age_of this a)) = true
               /\ truthy (VNum (timeout_of this a)) = true) /\
    (forall e timeout override,
       max_age_of this (TheOptions (Options timeout (Some (Finite 0 e)) override))
         = maximumAge this).
Proof.
  eexists. split; [reflexivity|]. cbn [providers providerTimeout maximumAge].
  repeat split.
  - unfold max_age_of. cbn [maximumAge]. by do 2 apply number_or_truthy.
  - unfold timeout_of. cbn [providerTimeout]. by do 2 apply number_or_truthy.
Qed.

(** X11: the ways to name the providers lead to the same call.  After
    [GeoLoc.setDefaultProviders(l)], [GeoLoc.getPosition(options, cb)] that
    misses the cache calls the first provider of [l]; so does
    [GeoLoc.use(l).getPosition(options, cb)].  Both run on an instance with
    the prototype's settings, so the timeout handed to the provider is
    [options.providerTimeout], else 10000. *)
Theorem configured_providers_are_called l a w p rest :
  heap w !!! l = p :: rest ->
  cached (number_or (opt_maximumAge (options_of a)) (of_Z 86400000)) w = VNull ->
  let q := fresh (dom (heap w)) in
  let t := number_or (opt_providerTimeout (options_of a)) (of_Z 10000) in
  trace (start (setDefaultProviders l;; static_getPosition a) w)
    = trace w ++ [ProviderGetPosition p (SequentialCallback q t) t] /\
  trace (start (this ← static_use l; getPosition this a) w)
    = trace w ++ [ProviderGetPosition p (SequentialCallback q t) t] /\
  heap (start (setDefaultProviders l;; static_getPosition a) w) !!! l = p :: rest.
Proof.
  intros Hl Hc q t.
  set (this := Build_GeoLoc (of_Z 10000) (of_Z 86400000) l).
  assert (Hthis : forall w0, heap w0 = heap w -> trace w0 = trace w ->
            cached (max_age_of this a) w0 = VNull ->
            trace (start (getPosition this a) w0)
              = trace w ++ [ProviderGetPosition p (SequentialCallback q t) t] /\
            heap (start (getPosition this a) w0) !!! l = p :: rest).
  { intros w0 Hh Ht Hc0. rewrite (getPosition_miss this a w0 p rest Hc0); [|by rewrite Hh].
    cbn [trace heap]. rewrite Hh, Ht. split; [done|].
    assert (l <> fresh (dom (heap w))) as Hne.
    { intros Heq. assert (is_Some (heap w !! l)) as Hsome.
      { rewrite lookup_total_alt in Hl. destruct (heap w !! l); [done|]. discriminate Hl. }
      apply elem_of_dom in Hsome. rewrite Heq in Hsome. by apply is_fresh in Hsome. }
    by rewrite !lookup_total_insert_ne. }
  set (w0 := World (heap w) (localStorage w) (clock w) l (uidCounter w)
                   (requests w) (trace w)).
  assert (Hc0 : cached (max_age_of this a) w0 = VNull)
    by (rewrite (cached_ext _ w0 w); done).
  split; [|split].
  - exact (proj1 (Hthis w0 eq_refl eq_refl Hc0)).
  - exact (proj1 (Hthis w eq_refl eq_refl Hc)).
  - exact (proj2 (Hthis w0 eq_refl eq_refl Hc0)).
Qed.

Lemma configured_providers_are_called_witness :
  trace (start (setDefaultProviders 2%positive;; static_getPosition TheCallback)
               world_override)
    = [ProviderGetPosition "ip" (SequentialCallback 3%positive (of_Z 10000)) (of_Z 10000)].
Proof.
  apply (configured_providers_are_called 2%positive TheCallback world_override "ip" []
           eq_refl eq_refl).
Defined.


(** *** The two editions *)

Lemma getPosition0_unfold this w :
  GeoLocJs0.getPosition this w = getPosition this TheCallback w.
Proof.
  rewrite getPosition_unfold. cbn [options_of no_options opt_maximumAge
                                   opt_providerTimeout number_or].
  unfold GeoLocJs0.getPosition.
  destruct (stored w) as [s|] eqn:Hs.
  - rewrite (read_item _ _ _ Hs). unfold stored in Hs.
    unfold getItem, Date_now, cb. unfold_monad. rewrite Hs.
    destruct s as [|c r]; [done|]. cbn [String.eqb].
    unfold age_of, timestamp_of, position_of.
    replace (String.eqb (String c r) "") with false by by destruct c.
    by destruct (le _ _).
  - rewrite (read_no_item _ _ Hs). unfold stored in Hs.
    unfold getItem. unfold_monad. by rewrite Hs.
Qed.

(** X12: the two editions agree where they overlap.  The method of the
    earlier edition, [getPosition(cb)], does what the later one does when
    called with the callback only.  The static [GeoLoc.getPosition(options,
    cb)] of the earlier edition, which hands the options to the constructor,
    does what the later one does, which hands them to the method, as long as
    the options name no providers. *)
Theorem editions_agree this a w :
  GeoLocJs0.getPosition this w = getPosition this TheCallback w /\
  (opt_providers (options_of a) = None ->
   GeoLocJs0.static_getPosition a w = static_getPosition a w).
Proof.
  split; [apply getPosition0_unfold|].
  intros Hp. unfold GeoLocJs0.static_getPosition, static_getPosition.
  rewrite (bind_normal _ _ w w _ eq_refl), (bind_normal _ _ w w _ eq_refl).
  rewrite getPosition0_unfold, !getPosition_unfold.
  cbn [options_of no_options opt_maximumAge opt_providerTimeout number_or
       maximumAge providerTimeout providers array_or].
  by rewrite Hp.
Qed.

Lemma editions_agree_witness :
  GeoLocJs0.static_getPosition
    (TheOptions (Options (Some (of_Z 500)) (Some (of_Z 60000)) None)) world_boundary
  = static_getPosition
      (TheOptions (Options (Some (of_Z 500)) (Some (of_Z 60000)) None)) world_boundary.
Proof.
  apply (proj2 (editions_agree GeoLoc_default
                  (TheOptions (Options (Some (of_Z 500)) (Some (of_Z 60000)) None))
                  world_boundary) eq_refl).
Defined.


(** *** localStorage *)

Lemma record_only_refl s : record_only s s.
Proof. by split. Qed.

Lemma record_only_trans s1 s2 s3 :
  record_only s1 s2 -> record_only s2 s3 -> record_only s1 s3.
Proof.
  intros [H1 H1'] [H2 H2']. split.
  - intros k Hk. by rewrite H2, H1.
  - intros H. by apply H2', H1'.
Qed.

Lemma record_only_insert s item : record_only s (<["_GeoLocData" := item]> s).
Proof.
  split.
  - intros k Hk. by rewrite lookup_insert_ne.
  - intros _. rewrite lookup_insert_eq. by eexists.
Qed.

Lemma deliver_storage c r w :
  localStorage (deliver c r w) = localStorage w
  \/ exists item, localStorage (deliver c r w) = <["_GeoLocData" := item]> (localStorage w).
Proof.
  rewrite deliver_unfold.
  destruct (reply_cases r) as [Hf | [(He & la & lo & Hd) | Hr]]; destruct c as [q t | id].
  - left. destruct (heap (at_clock w r) !!! q) as [|p rest] eqn:Hq.
    + by rewrite (callback_failed_nil _ _ _ _ Hf Hq).
    + rewrite (callback_failed_cons _ _ _ _ _ _ Hf Hq).
      by rewrite (getPosition_next_cons _ _ _ _ _ Hq).
  - left. pose proof (deliver_parallel_failed id r w Hf) as H.
    rewrite deliver_unfold in H. by rewrite H.
  - right. rewrite (callback_numeric _ _ _ _ _ _ _ He Hd). by eexists.
  - right. rewrite (parallel_callback_numeric _ _ _ _ _ _ He Hd). by eexists.
  - left. destruct (incorrect_data_unreadable r (at_clock w r) Hr) as [He Hd].
    unfold getPosition_callback. rewrite He. by rewrite (bind_throw _ _ _ _ _ Hd).
  - left. destruct (incorrect_data_unreadable r (at_clock w r) Hr) as [He _].
    rewrite (parallel_callback_throws _ _ _ (VError "TypeError" "Cannot read property latitude"));
      [done | done |].
    intros w1. by destruct (incorrect_data_unreadable r w1 Hr).
Qed.

Lemma run_storage events : forall w,
  record_only (localStorage w) (localStorage (run events w)).
Proof.
  induction events as [|[c r] events IH]; intros w; [apply record_only_refl|].
  cbn [run foldl fst snd]. eapply record_only_trans; [|apply IH].
  destruct (deliver_storage c r w) as [-> | [item ->]];
    [apply record_only_refl | apply record_only_insert].
Qed.

Lemma start_storage this a w :
  localStorage (start (getPosition this a) w) = localStorage w /\
  localStorage (start (getPositionParallel this a) w) = localStorage w.
Proof.
  unfold start. destruct (cached_null_or_truthy (max_age_of this a) w) as [Hc | Hc].
  - split; [|by rewrite (getPositionParallel_miss _ _ _ Hc)].
    rewrite getPosition_unfold. fold (max_age_of this a). rewrite read_cached, Hc.
    cbn [truthy]. destruct (heap w !!! providers this) as [|p rest] eqn:Hq.
    + by rewrite (queue_start_empty _ _ _ Hq).
    + by rewrite (queue_start _ _ _ _ _ Hq).
  - by rewrite (getPosition_hit _ _ _ Hc), (getPositionParallel_hit _ _ _ Hc).
Qed.

(** X13: whatever the providers do, in whatever order and however often they
    call back, a call of either strategy touches a single item of
    localStorage, the record ['_GeoLocData']: every other key keeps what it
    had, and a record that was there is never removed, only replaced. *)
Theorem only_the_record_is_written this a events w :
  record_only (localStorage w)
              (localStorage (run events (start (getPosition this a) w))) /\
  record_only (localStorage w)
              (localStorage (run events (start (getPositionParallel this a) w))).
Proof.
  destruct (start_storage this a w) as [Hs Hp]. split.
  - rewrite <- Hs at 1. apply run_storage.
  - rewrite <- Hp at 1. apply run_storage.
Qed.

(** ** Numbers written and read back *)

Local Open Scope string_scope.
Local Open Scope Z_scope.

Lemma append_cons c (s1 s2 : string) : (String c s1 ++ s2 = String c (s1 ++ s2))%string.
Proof. reflexivity. Qed.

Lemma append_nil_l (s : string) : ("" ++ s = s)%string.
Proof. reflexivity. Qed.

Lemma read_digits_stops s acc cnt :
  stops s = true -> read_digits 10 s acc cnt = (acc, cnt, s).
Proof.
  destruct s as [|c r]; [done|]. cbn [stops read_digits]. unfold is_digit.
  by destruct (digit_of 10 c).
Qed.

Lemma read_digits_block d : forall rest acc cnt,
  all_digits d = true ->
  read_digits 10 (d ++ rest)%string acc cnt
  = read_digits 10 rest (value_from acc d) (cnt + Z.of_nat (String.length d)).
Proof.
  induction d as [|c d IH]; intros rest acc cnt Hd.
  - cbn. by rewrite Z.add_0_r.
  - cbn [all_digits] in Hd. apply andb_true_iff in Hd as [Hc Hd].
    rewrite append_cons.
    cbn [read_digits value_from String.length]. unfold is_digit, digit in *.
    destruct (digit_of 10 c) as [x|]; [|done]. cbn [default id].
    rewrite IH; [|done]. f_equal. lia.
Qed.

Lemma value_from_shift d : forall acc,
  value_from acc d = acc * 10 ^ Z.of_nat (String.length d) + value_from 0 d.
Proof.
  induction d as [|c d IH]; intros acc.
  - cbn. lia.
  - cbn [value_from String.length]. rewrite IH, (IH (0 * 10 + digit c)).
    rewrite Nat2Z.inj_succ, Z.pow_succ_r; lia.
Qed.

Lemma value_from_app d1 d2 acc :
  value_from acc (d1 ++ d2)%string = value_from (value_from acc d1) d2.
Proof.
  revert acc. induction d1 as [|c d1 IH]; intros acc; [done|].
  rewrite append_cons. cbn [value_from]. apply IH.
Qed.

Lemma value_from_zeros n acc : value_from acc (zeros n) = acc * 10 ^ Z.of_nat n.
Proof.
  revert acc. induction n as [|n IH]; intros acc.
  - cbn. lia.
  - cbn [zeros value_from]. rewrite IH. change (digit "0") with 0.
    rewrite Nat2Z.inj_succ, Z.pow_succ_r; lia.
Qed.

Lemma all_digits_app d1 d2 :
  all_digits (d1 ++ d2)%string = all_digits d1 && all_digits d2.
Proof.
  induction d1 as [|c d1 IH]; [done|].
  rewrite append_cons. cbn [all_digits]. by rewrite IH, andb_assoc.
Qed.

Lemma all_digits_zeros n : all_digits (zeros n) = true.
Proof. by induction n. Qed.

Lemma length_zeros n : String.length (zeros n) = n.
Proof. induction n; [done|]. cbn. by f_equal. Qed.

Lemma length_append (s1 s2 : string) :
  String.length (s1 ++ s2)%string = (String.length s1 + String.length s2)%nat.
Proof.
  induction s1 as [|c s1 IH]; [done|]. rewrite append_cons. cbn [String.length]. by rewrite IH.
Qed.

(** *** Digits of a number *)
Lemma uint_digits u : all_digits (NilEmpty.string_of_uint u) = true.
Proof. induction u; cbn; done. Qed.

Lemma uint_value_acc u : forall acc,
  value_from (Zpos acc) (NilEmpty.string_of_uint u) = Zpos (Pos.of_uint_acc u acc).
Proof.
  induction u; intros acc; cbn [NilEmpty.string_of_uint value_from Pos.of_uint_acc];
    [done| | | | | | | | | |];
    match goal with |- value_from (_ + digit ?c) _ = _ =>
      let v := eval vm_compute in (digit c) in change (digit c) with v end;
    rewrite <- IHu; f_equal; lia.
Qed.

Lemma uint_value u :
  value_from 0 (NilEmpty.string_of_uint u) = Z.of_N (Pos.of_uint u).
Proof.
  induction u; cbn [NilEmpty.string_of_uint value_from Pos.of_uint];
    [done | exact IHu | | | | | | | | |];
    match goal with |- value_from (_ + digit ?c) _ = _ =>
      let v := eval vm_compute in (digit c) in change (digit c) with v end;
    cbn [Z.of_N]; rewrite <- uint_value_acc; f_equal.
Qed.

Lemma digits_of_positive_spec m :
  0 <= m ->
  all_digits (digits_of_positive m) = true /\
  value_from 0 (digits_of_positive m) = m /\
  (1 <= String.length (digits_of_positive m))%nat.
Proof.
  intros Hm. unfold digits_of_positive.
  pose proof (DecimalN.Unsigned.of_to (Z.to_N m)) as Hof. unfold N.of_uint in Hof.
  destruct (N.to_uint (Z.to_N m)) as [|u|u|u|u|u|u|u|u|u|u] eqn:Hu.
  { apply (f_equal Z.of_N) in Hof. rewrite Z2N.id in Hof by done.
    cbn in Hof. subst m. repeat split. cbn. lia. }
  all: unfold NilZero.string_of_uint.
  all: split; [apply uint_digits|].
  all: split; [rewrite uint_value, Hof; by apply Z2N.id | cbn; lia].
Qed.

(** *** Reversal and trailing zeros *)
Lemma append_assoc (a b c : string) : ((a ++ b) ++ c = a ++ (b ++ c))%string.
Proof. induction a as [|x a IH]; [done|]. rewrite !append_cons. by rewrite IH. Qed.

Lemma append_nil_r (a : string) : (a ++ "" = a)%string.
Proof. induction a as [|x a IH]; [done|]. rewrite append_cons. by rewrite IH. Qed.

Lemma rev_string_acc s : forall acc, rev_string acc s = (rev_string "" s ++ acc)%string.
Proof.
  induction s as [|c s IH]; intros acc; [done|].
  cbn [rev_string]. rewrite IH, (IH (String c "")), append_assoc. done.
Qed.

Lemma rev_string_append a b :
  rev_string "" (a ++ b)%string = (rev_string "" b ++ rev_string "" a)%string.
Proof.
  induction a as [|x a IH].
  - by rewrite append_nil_l, append_nil_r.
  - rewrite append_cons. cbn [rev_string].
    rewrite (rev_string_acc (a ++ b)%string), (rev_string_acc a), IH, append_assoc. done.
Qed.

Lemma rev_string_involutive s : rev_string "" (rev_string "" s) = s.
Proof.
  induction s as [|c s IH]; [done|].
  cbn [rev_string]. rewrite (rev_string_acc s (String c "")), rev_string_append, IH. done.
Qed.

Lemma rev_string_zeros n : rev_string "" (zeros n) = zeros n.
Proof.
  induction n as [|n IH]; [done|].
  cbn [zeros rev_string]. rewrite (rev_string_acc (zeros n) (String "0" "")), IH.
  clear. induction n as [|n IH]; [done|]. cbn [zeros]. rewrite append_cons. by rewrite IH.
Qed.

Lemma drop_zeros_spec s : forall dropped,
  exists rds z, drop_zeros s dropped = (rds, dropped + Z.of_nat z) /\
                s = (zeros z ++ rds)%string.
Proof.
  induction s as [|c s IH]; intros dropped.
  - exists "", 0%nat. cbn. split; [f_equal; lia | done].
  - destruct (Ascii.eqb_spec c "0"%char) as [-> | Hne].
    + destruct (IH (dropped + 1)) as (rds & z & Hd & Hs).
      exists rds, (S z). cbn [drop_zeros]. rewrite Hd. split; [f_equal; lia|].
      cbn [zeros]. rewrite append_cons. by rewrite <- Hs.
    + exists (String c s), 0%nat. split; [|done].
      replace (dropped + Z.of_nat 0) with dropped by lia.
      cbn [drop_zeros].
      destruct c as [[] [] [] [] [] [] [] []]; try reflexivity. by destruct Hne.
Qed.

(** The digits of [m] without the zeros at the end, and how many they were *)
Lemma mantissa_digits m :
  0 < m ->
  exists ds z,
    drop_zeros (rev_string "" (digits_of_positive m)) 0 = (rev_string "" ds, Z.of_nat z) /\
    all_digits ds = true /\
    (1 <= String.length ds)%nat /\
    m = value_from 0 ds * 10 ^ Z.of_nat z /\
    digits_of_positive m = ds ++ zeros z.
Proof.
  intros Hm. destruct (digits_of_positive_spec m ltac:(lia)) as (Hd & Hv & _).
  destruct (drop_zeros_spec (rev_string "" (digits_of_positive m)) 0) as (rds & z & Hdz & Hs).
  apply (f_equal (rev_string "")) in Hs.
  rewrite rev_string_involutive, rev_string_append, rev_string_zeros in Hs.
  exists (rev_string "" rds), z. rewrite rev_string_involutive.
  rewrite Hs, all_digits_app, all_digits_zeros, andb_true_r in Hd.
  rewrite Hs, value_from_app, value_from_zeros in Hv.
  split; [by rewrite Hdz|]. split; [done|]. split; [|done].
  destruct (rev_string "" rds); [|cbn; lia]. cbn in Hv. lia.
Qed.

Lemma positive_to_string_layout m e :
  0 < m ->
  exists ds z,
    all_digits ds = true /\
    (1 <= String.length ds)%nat /\
    m = value_from 0 ds * 10 ^ Z.of_nat z /\
    positive_to_string m e = layout ds (e + Z.of_nat z + Z.of_nat (String.length ds)).
Proof.
  intros Hm. destruct (mantissa_digits m Hm) as (ds & z & Hdz & Hd & Hl & Hv & _).
  exists ds, z. repeat split; try done.
  unfold positive_to_string. rewrite Hdz, rev_string_involutive. reflexivity.
Qed.

(** *** White space *)
Lemma no_white_append a b : no_white (a ++ b) = no_white a && no_white b.
Proof.
  induction a as [|c a IH]; [done|]. rewrite append_cons. cbn [no_white].
  by rewrite IH, andb_assoc.
Qed.

Lemma no_white_rev s : no_white (rev_string "" s) = no_white s.
Proof.
  induction s as [|c s IH]; [done|]. cbn [rev_string no_white].
  rewrite rev_string_acc, no_white_append, IH. cbn [no_white].
  rewrite andb_true_r. apply andb_comm.
Qed.

Lemma trim_left_no_white s : no_white s = true -> trim_left s = s.
Proof.
  destruct s as [|c s]; [done|]. cbn [no_white trim_left].
  by destruct (is_white c).
Qed.

Lemma trim_no_white s : no_white s = true -> trim s = s.
Proof.
  intros H. unfold trim. rewrite (trim_left_no_white s H).
  rewrite trim_left_no_white by by rewrite no_white_rev.
  apply rev_string_involutive.
Qed.

Lemma digit_not_white c : is_digit c = true -> is_white c = false.
Proof. destruct c as [[] [] [] [] [] [] [] []]; done. Qed.

Lemma all_digits_no_white s : all_digits s = true -> no_white s = true.
Proof.
  induction s as [|c s IH]; [done|]. cbn [all_digits no_white].
  intros H. apply andb_true_iff in H as [Hc Hs]. by rewrite (digit_not_white c Hc), IH.
Qed.

Lemma Number_digit_first c s :
  is_digit c = true -> after_digit s = true -> no_white s = true ->
  Number (String c s) = read_decimal (String c s).
Proof.
  intros Hc Ha Hw. unfold Number. rewrite trim_no_white.
  2:{ cbn [no_white]. by rewrite (digit_not_white c Hc). }
  destruct c as [[] [] [] [] [] [] [] []]; try discriminate Hc; try reflexivity.
  destruct s as [|c2 s]; [reflexivity|].
  cbn [after_digit] in Ha.
  destruct c2 as [[] [] [] [] [] [] [] []]; try discriminate Ha; reflexivity.
Qed.

(** *** Substrings *)
Lemma substring_split s : forall n,
  (n <= String.length s)%nat ->
  substring 0 n s ++ substring n (String.length s - n) s = s.
Proof.
  induction s as [|c s IH]; intros [|n] Hn; cbn [String.length] in *; try lia.
  - done.
  - cbn [substring Nat.sub]. rewrite append_nil_l.
    destruct s as [|c' s]; [done|]. cbn [String.length substring]. f_equal.
    specialize (IH 0%nat ltac:(lia)). cbn [substring] in IH.
    rewrite Nat.sub_0_r in IH. destruct (String.length s) eqn:Hl.
    + destruct s; [done|discriminate].
    + cbn [String.length] in IH. rewrite Hl in IH. cbn in IH. done.
  - cbn [substring Nat.sub]. rewrite append_cons. f_equal. apply IH. lia.
Qed.

Lemma substring_length_prefix s : forall n,
  (n <= String.length s)%nat -> String.length (substring 0 n s) = n.
Proof.
  induction s as [|c s IH]; intros [|n] Hn; cbn [String.length] in *; try lia; try done.
  cbn [substring String.length]. f_equal. apply IH. lia.
Qed.

Lemma all_digits_split a b :
  all_digits (a ++ b) = true -> all_digits a = true /\ all_digits b = true.
Proof. rewrite all_digits_app. apply andb_true_iff. Qed.

(** A string of digits cut at [n] *)
Lemma digits_cut ds n :
  all_digits ds = true -> (n <= String.length ds)%nat ->
  exists d1 d2,
    substring 0 n ds = d1 /\ substring n (String.length ds - n) ds = d2 /\
    ds = d1 ++ d2 /\ all_digits d1 = true /\ all_digits d2 = true /\
    String.length d1 = n /\ String.length d2 = (String.length ds - n)%nat.
Proof.
  intros Hd Hn. pose proof (substring_split ds n Hn) as Hs.
  exists (substring 0 n ds), (substring n (String.length ds - n) ds).
  rewrite <- Hs in Hd. apply all_digits_split in Hd as [H1 H2].
  pose proof (substring_length_prefix ds n Hn) as Hl1.
  repeat split; try done.
  apply (f_equal String.length) in Hs. rewrite length_append, Hl1 in Hs. lia.
Qed.

(** *** Parsing what was laid out *)
Lemma read_exponent_nil : read_exponent "" = Some 0.
Proof. reflexivity. Qed.

Lemma read_exponent_signed (negative : bool) E :
  all_digits E = true -> (1 <= String.length E)%nat ->
  read_exponent ("e" ++ (if negative then "-" else "+") ++ E)
  = Some (if negative then - value_from 0 E else value_from 0 E).
Proof.
  intros Hd Hl.
  assert (read_digits 10 E 0 0 = (value_from 0 E, Z.of_nat (String.length E), "")) as Hr.
  { rewrite <- (append_nil_r E) at 1. rewrite read_digits_block by done.
    by rewrite read_digits_stops. }
  destruct negative; cbn [append read_exponent Ascii.eqb Bool.eqb orb];
    rewrite !append_cons, append_nil_l; cbn [read_exponent Ascii.eqb Bool.eqb orb].
  all: rewrite append_nil_l, Hr; destruct (0 <? Z.of_nat (String.length E)) eqn:Hlt; try done;
    apply Z.ltb_ge in Hlt; lia.
Qed.

(** The digits, then something that is neither a digit nor a point *)
Lemma read_decimal_integer d X :
  all_digits d = true -> (1 <= String.length d)%nat ->
  stops X = true ->
  match X with String "." _ => False | _ => True end ->
  read_decimal (d ++ X) =
    match read_exponent X with
    | Some x => Finite (value_from 0 d) (x - 0)
    | None => NaN
    end.
Proof.
  intros Hd Hl Hs Hp. unfold read_decimal.
  rewrite read_digits_block by done. rewrite read_digits_stops by done.
  assert (match X with
          | String "." r => read_digits 10 r (value_from 0 d) 0
          | _ => (value_from 0 d, 0, X)
          end = (value_from 0 d, 0, X)) as ->.
  { destruct X as [|c X]; [done|].
    destruct c as [[] [] [] [] [] [] [] []]; try done. }
  destruct (0 <? 0 + Z.of_nat (String.length d) + 0) eqn:Hlt; [done|].
  apply Z.ltb_ge in Hlt. lia.
Qed.

(** The digits, a point, more digits, then something that is not a digit *)
Lemma read_decimal_fraction d1 d2 X :
  all_digits d1 = true -> all_digits d2 = true ->
  (1 <= String.length d1 + String.length d2)%nat ->
  stops X = true ->
  read_decimal (d1 ++ "." ++ d2 ++ X) =
    match read_exponent X with
    | Some x => Finite (value_from 0 (d1 ++ d2)) (x - Z.of_nat (String.length d2))
    | None => NaN
    end.
Proof.
  intros Hd1 Hd2 Hl Hs. unfold read_decimal.
  rewrite read_digits_block by done. rewrite append_cons, append_nil_l.
  rewrite read_digits_stops by done.
  rewrite read_digits_block by done. rewrite read_digits_stops by done.
  rewrite value_from_app.
  destruct (0 <? 0 + Z.of_nat (String.length d1) + (0 + Z.of_nat (String.length d2))) eqn:Hlt;
    [done|].
  apply Z.ltb_ge in Hlt. lia.
Qed.

Lemma no_white_char c s :
  no_white (String c "" ++ s) = negb (is_white c) && no_white s.
Proof. reflexivity. Qed.

Lemma Number_decimal d Y :
  all_digits d = true -> (1 <= String.length d)%nat ->
  after_digit Y = true -> no_white Y = true ->
  Number (d ++ Y) = read_decimal (d ++ Y).
Proof.
  intros Hd Hl Ha Hw. destruct d as [|c d]; [cbn in Hl; lia|].
  cbn [all_digits] in Hd. apply andb_true_iff in Hd as [Hc Hd].
  rewrite append_cons. apply Number_digit_first; [done| |].
  - destruct d as [|c' d]; [done|]. rewrite append_cons. cbn [all_digits] in Hd.
    apply andb_true_iff in Hd as [Hc' _]. cbn [after_digit]. by rewrite Hc'.
  - by rewrite no_white_append, all_digits_no_white.
Qed.

Lemma same_number_refl x : same_number x x.
Proof. destruct x; cbn; done. Qed.

Lemma same_number_scaled V z e :
  0 <= z -> same_number (Finite (V * 10 ^ z) e) (Finite V (e + z)).
Proof.
  intros Hz. cbn. rewrite Z.min_l by lia. rewrite Z.sub_diag.
  replace (e + z - e) with z by lia. lia.
Qed.

Lemma same_number_sym x y : same_number x y -> same_number y x.
Proof.
  destruct x as [|a|m1 e1], y as [|b|m2 e2]; cbn; try done.
  rewrite (Z.min_comm e2 e1). done.
Qed.

(** What [Number] reads in what [layout] wrote *)
Lemma Number_layout ds n :
  all_digits ds = true -> (1 <= String.length ds)%nat ->
  same_number (Number (layout ds n))
              (Finite (value_from 0 ds) (n - Z.of_nat (String.length ds))).
Proof.
  intros Hd Hl. unfold layout.
  set (k := Z.of_nat (String.length ds)).
  destruct ((k <=? n) && (n <=? 21)) eqn:H1.
  { apply andb_true_iff in H1 as [Hkn _]. apply Z.leb_le in Hkn.
    rewrite <- (append_nil_r (ds ++ zeros _)).
    rewrite Number_decimal; try done.
    - rewrite read_decimal_integer; try done.
      + rewrite read_exponent_nil, value_from_app, value_from_zeros.
        rewrite Z2Nat.id by lia. cbn [same_number align].
        rewrite Z.min_l by lia. replace (n - k - (0 - 0)) with (n - k) by lia.
        replace (0 - 0 - (0 - 0)) with 0 by lia. lia.
      + by rewrite all_digits_app, Hd, all_digits_zeros.
      + rewrite length_append. lia.
    - by rewrite all_digits_app, Hd, all_digits_zeros.
    - rewrite length_append. lia. }
  destruct ((0 <? n) && (n <=? 21)) eqn:H2.
  { apply andb_true_iff in H2 as [Hn Hn21]. apply Z.ltb_lt in Hn. apply Z.leb_le in Hn21.
    apply andb_false_iff in H1 as [H1 | H1]; [apply Z.leb_gt in H1 | apply Z.leb_gt in H1; lia].
    destruct (digits_cut ds (Z.to_nat n) Hd ltac:(lia)) as (d1 & d2 & -> & Hs2 & Hds & Hd1 & Hd2 & Hl1 & Hl2).
    replace (Z.to_nat (k - n)) with (String.length ds - Z.to_nat n)%nat by lia.
    rewrite Hs2.
    rewrite Number_decimal; try done; try lia.
    - rewrite <- (append_nil_r d2) at 1. rewrite read_decimal_fraction; try done; try lia.
      rewrite read_exponent_nil, <- Hds.
      replace (0 - Z.of_nat (String.length d2)) with (n - k) by lia.
      apply same_number_refl.
    - rewrite no_white_char. by rewrite all_digits_no_white. }
  destruct ((-6 <? n) && (n <=? 0)) eqn:H3.
  { apply andb_true_iff in H3 as [_ Hn]. apply Z.leb_le in Hn.
    change ("0." ++ zeros (Z.to_nat (- n)) ++ ds)
      with ("0" ++ "." ++ zeros (Z.to_nat (- n)) ++ ds).
    rewrite Number_decimal; try done.
    - rewrite <- (append_nil_r ds) at 1.
      rewrite <- (append_assoc (zeros (Z.to_nat (- n))) ds "").
      rewrite read_decimal_fraction; try done.
      + rewrite read_exponent_nil, !value_from_app, value_from_zeros.
        rewrite length_append, length_zeros.
        change (value_from 0 "0") with 0. rewrite Z.mul_0_l.
        replace (0 - Z.of_nat (Z.to_nat (- n) + String.length ds)) with (n - k) by lia.
        apply same_number_refl.
      + by rewrite all_digits_app, all_digits_zeros.
      + cbn. lia.
    - rewrite no_white_char, no_white_append, !all_digits_no_white; try done.
      apply all_digits_zeros. }
  assert (Hx : n - 1 <> 0).
  { apply andb_false_iff in H2, H3.
    rewrite Z.ltb_ge, Z.leb_gt in H2, H3. lia. }
  destruct (digits_of_positive_spec (Z.abs (n - 1)) ltac:(lia)) as (HdE & HvE & HlE).
  assert (Hexp : read_exponent ("e" ++ (if n - 1 <? 0 then "-" else "+")
                                    ++ digits_of_positive (Z.abs (n - 1)))
                 = Some (n - 1)).
  { rewrite read_exponent_signed by done. rewrite HvE. f_equal.
    destruct (n - 1 <? 0) eqn:Hs; [apply Z.ltb_lt in Hs | apply Z.ltb_ge in Hs]; lia. }
  assert (Hw : no_white ("e" ++ (if n - 1 <? 0 then "-" else "+")
                             ++ digits_of_positive (Z.abs (n - 1))) = true).
  { destruct (n - 1 <? 0); rewrite !no_white_char; by rewrite all_digits_no_white. }
  destruct (k =? 1) eqn:Hk.
  { apply Z.eqb_eq in Hk.
    rewrite Number_decimal; try done.
    rewrite read_decimal_integer; try done.
    rewrite Hexp. replace (n - 1 - 0) with (n - k) by lia. apply same_number_refl. }
  apply Z.eqb_neq in Hk.
  destruct (digits_cut ds 1 Hd ltac:(lia)) as (d1 & d2 & -> & Hs2 & Hds & Hd1 & Hd2 & Hl1 & Hl2).
  replace (Z.to_nat (k - 1)) with (String.length ds - 1)%nat by lia.
  rewrite Hs2, !append_assoc.
  rewrite Number_decimal; try done; try lia.
  - rewrite read_decimal_fraction; try done; try lia.
    rewrite Hexp, <- Hds.
    replace (n - 1 - Z.of_nat (String.length d2)) with (n - k) by lia.
    apply same_number_refl.
  - by rewrite no_white_char, no_white_append, all_digits_no_white.
Qed.

(** *** The shape of what is laid out *)
Lemma all_plain_append a b : all_plain (a ++ b) = all_plain a && all_plain b.
Proof.
  induction a as [|c a IH]; [done|]. rewrite append_cons. cbn [all_plain].
  by rewrite IH, andb_assoc.
Qed.

Lemma all_digits_plain s : all_digits s = true -> all_plain s = true.
Proof.
  induction s as [|c s IH]; [done|]. cbn [all_digits all_plain]. unfold plain_char.
  intros H. apply andb_true_iff in H as [-> Hs]. by rewrite IH.
Qed.

Lemma plain_not_white c : plain_char c = true -> is_white c = false.
Proof. destruct c as [[] [] [] [] [] [] [] []]; done. Qed.

Lemma plain_not_comma c : plain_char c = true -> Ascii.eqb c "," = false.
Proof. destruct c as [[] [] [] [] [] [] [] []]; done. Qed.

Lemma all_plain_no_white s : all_plain s = true -> no_white s = true.
Proof.
  induction s as [|c s IH]; [done|]. cbn [all_plain no_white].
  intros H. apply andb_true_iff in H as [Hc Hs]. by rewrite (plain_not_white c Hc), IH.
Qed.

Lemma all_plain_no_comma s : all_plain s = true -> no_comma s = true.
Proof.
  induction s as [|c s IH]; [done|]. cbn [all_plain no_comma].
  intros H. apply andb_true_iff in H as [Hc Hs]. by rewrite (plain_not_comma c Hc), IH.
Qed.

(** A block of digits followed by a point, an exponent or nothing starts
    with a digit, and what follows that digit is of the same kind. *)
Lemma digits_head d Y :
  all_digits d = true -> (1 <= String.length d)%nat -> after_digit Y = true ->
  exists c s, d ++ Y = String c s /\ is_digit c = true /\ after_digit s = true.
Proof.
  intros Hd Hl Ha. destruct d as [|c d]; [cbn in Hl; lia|].
  cbn [all_digits] in Hd. apply andb_true_iff in Hd as [Hc Hd].
  exists c, (d ++ Y). rewrite append_cons. split; [done|]. split; [done|].
  destruct d as [|c' d]; [done|]. rewrite append_cons. cbn [all_digits] in Hd.
  apply andb_true_iff in Hd as [Hc' _]. cbn [after_digit]. by rewrite Hc'.
Qed.

Lemma all_plain_zeros n : all_plain (zeros n) = true.
Proof. apply all_digits_plain, all_digits_zeros. Qed.

Lemma layout_shape ds n :
  all_digits ds = true -> (1 <= String.length ds)%nat ->
  all_plain (layout ds n) = true /\
  exists c s, layout ds n = String c s /\ is_digit c = true /\ after_digit s = true.
Proof.
  intros Hd Hl. unfold layout.
  set (k := Z.of_nat (String.length ds)).
  destruct ((k <=? n) && (n <=? 21)) eqn:H1.
  { split.
    - by rewrite all_plain_append, (all_digits_plain ds Hd), all_plain_zeros.
    - rewrite <- (append_nil_r (ds ++ zeros _)). apply digits_head; try done.
      + by rewrite all_digits_app, Hd, all_digits_zeros.
      + rewrite length_append. lia. }
  destruct ((0 <? n) && (n <=? 21)) eqn:H2.
  { apply andb_true_iff in H2 as [Hn Hn21]. apply Z.ltb_lt in Hn. apply Z.leb_le in Hn21.
    apply andb_false_iff in H1 as [H1 | H1]; [apply Z.leb_gt in H1 | apply Z.leb_gt in H1; lia].
    destruct (digits_cut ds (Z.to_nat n) Hd ltac:(lia))
      as (d1 & d2 & -> & Hs2 & Hds & Hd1 & Hd2 & Hl1 & Hl2).
    replace (Z.to_nat (k - n)) with (String.length ds - Z.to_nat n)%nat by lia.
    rewrite Hs2. split.
    - by rewrite !all_plain_append, (all_digits_plain d1 Hd1), (all_digits_plain d2 Hd2).
    - apply digits_head; try done. lia. }
  destruct ((-6 <? n) && (n <=? 0)) eqn:H3.
  { split.
    - change "0." with ("0" ++ ".").
      by rewrite !all_plain_append, (all_digits_plain ds Hd), all_plain_zeros.
    - change ("0." ++ zeros (Z.to_nat (- n)) ++ ds)
        with ("0" ++ "." ++ zeros (Z.to_nat (- n)) ++ ds).
      apply digits_head; done. }
  destruct (digits_of_positive_spec (Z.abs (n - 1)) ltac:(lia)) as (HdE & HvE & HlE).
  assert (HpE : all_plain ("e" ++ (if n - 1 <? 0 then "-" else "+")
                              ++ digits_of_positive (Z.abs (n - 1))) = true).
  { destruct (n - 1 <? 0); by rewrite !all_plain_append, (all_digits_plain _ HdE). }
  destruct (k =? 1) eqn:Hk.
  { split.
    - by rewrite all_plain_append, HpE, (all_digits_plain ds Hd).
    - apply digits_head; done. }
  apply Z.eqb_neq in Hk.
  destruct (digits_cut ds 1 Hd ltac:(lia))
    as (d1 & d2 & -> & Hs2 & Hds & Hd1 & Hd2 & Hl1 & Hl2).
  replace (Z.to_nat (k - 1)) with (String.length ds - 1)%nat by lia.
  rewrite Hs2. split.
  - rewrite (all_plain_append _ ("e" ++ _)), HpE, !all_plain_append.
    by rewrite (all_digits_plain d1 Hd1), (all_digits_plain d2 Hd2).
  - rewrite !append_assoc. apply digits_head; try done. lia.
Qed.

Lemma read_unsigned_digit_first c s :
  is_digit c = true -> read_unsigned (String c s) = read_decimal (String c s).
Proof.
  intros Hc. unfold read_unsigned, read_decimal.
  destruct c as [[] [] [] [] [] [] [] []]; try discriminate Hc; reflexivity.
Qed.

Lemma Number_minus c s :
  is_digit c = true -> after_digit s = true -> no_white s = true ->
  Number ("-" ++ String c s) = negate (Number (String c s)).
Proof.
  intros Hc Ha Hw. rewrite (Number_digit_first c s Hc Ha Hw).
  unfold Number. rewrite trim_no_white.
  2:{ rewrite no_white_char. cbn [no_white]. by rewrite (digit_not_white c Hc). }
  rewrite append_cons, append_nil_l. by rewrite (read_unsigned_digit_first c s Hc).
Qed.

(** *** Number after number_to_string *)
Lemma same_number_unscale x V z e :
  0 <= z ->
  same_number x (Finite V (e + z)) -> same_number x (Finite (V * 10 ^ z) e).
Proof.
  intros Hz. destruct x as [|a|a b]; cbn [same_number align]; try done.
  destruct (Z.le_gt_cases b e) as [Hbe | Hbe].
  - rewrite !Z.min_l by lia. rewrite !Z.sub_diag, !Z.mul_1_r. intros ->.
    replace (e + z - b) with (z + (e - b)) by lia.
    rewrite Z.pow_add_r by lia. lia.
  - rewrite (Z.min_r b e) by lia. rewrite Z.sub_diag, Z.mul_1_r.
    destruct (Z.le_gt_cases b (e + z)) as [Hbz | Hbz].
    + rewrite Z.min_l by lia. rewrite Z.sub_diag, Z.mul_1_r. intros ->.
      rewrite <- Z.mul_assoc, <- Z.pow_add_r by lia. f_equal. f_equal. lia.
    + rewrite Z.min_r by lia. rewrite Z.sub_diag, Z.mul_1_r. intros <-.
      rewrite <- Z.mul_assoc, <- Z.pow_add_r by lia. f_equal. f_equal. lia.
Qed.

Lemma same_number_negate x y : same_number x y -> same_number (negate x) (negate y).
Proof.
  destruct x as [|a|m1 e1], y as [|b|m2 e2]; cbn [same_number negate align]; try done.
  - by intros ->.
  - lia.
Qed.

Lemma Number_positive m e :
  0 < m -> same_number (Number (positive_to_string m e)) (Finite m e).
Proof.
  intros Hm. destruct (positive_to_string_layout m e Hm) as (ds & z & Hd & Hl & Hv & ->).
  rewrite Hv. apply same_number_unscale; [lia|].
  pose proof (Number_layout ds (e + Z.of_nat z + Z.of_nat (String.length ds)) Hd Hl) as H.
  by replace (e + Z.of_nat z + Z.of_nat (String.length ds) - Z.of_nat (String.length ds))
    with (e + Z.of_nat z) in H by lia.
Qed.

(** [Number(String(x))] is [x] *)
Lemma Number_round_trip x : same_number (Number (number_to_string x)) x.
Proof.
  destruct x as [|[]|m e]; try done.
  unfold number_to_string.
  destruct (m =? 0) eqn:H0.
  { apply Z.eqb_eq in H0 as ->. change (Number "0") with (Finite 0 0).
    cbn [same_number align]. by rewrite !Z.mul_0_l. }
  apply Z.eqb_neq in H0.
  destruct (m <? 0) eqn:Hneg; [apply Z.ltb_lt in Hneg | apply Z.ltb_ge in Hneg].
  - destruct (positive_to_string_layout (- m) e ltac:(lia)) as (ds & z & Hd & Hl & Hv & Hp).
    destruct (layout_shape ds (e + Z.of_nat z + Z.of_nat (String.length ds)) Hd Hl)
      as (Hpl & c & s & Hs & Hc & Ha).
    pose proof (Number_positive (- m) e ltac:(lia)) as Hn.
    rewrite Hp, Hs in *. rewrite Number_minus; try done.
    + apply same_number_negate in Hn. cbn [negate] in Hn.
      by replace (- - m) with m in Hn by lia.
    + cbn [all_plain] in Hpl. apply andb_true_iff in Hpl as [_ Hpl].
      by apply all_plain_no_white.
  - apply Number_positive. lia.
Qed.

Lemma number_to_string_no_comma x : no_comma (number_to_string x) = true.
Proof.
  destruct x as [|[]|m e]; try done.
  unfold number_to_string.
  destruct (m =? 0) eqn:H0; [done|]. apply Z.eqb_neq in H0.
  assert (forall p, 0 < p -> all_plain (positive_to_string p e) = true) as Hpos.
  { intros p Hp. destruct (positive_to_string_layout p e Hp) as (ds & z & Hd & Hl & _ & ->).
    by apply layout_shape. }
  destruct (m <? 0) eqn:Hneg; [apply Z.ltb_lt in Hneg | apply Z.ltb_ge in Hneg].
  - apply all_plain_no_comma. rewrite all_plain_append. rewrite Hpos by lia. done.
  - apply all_plain_no_comma, Hpos. lia.
Qed.

(** *** Split after join *)
Lemma split_no_comma a : no_comma a = true -> split "," a = [a].
Proof.
  induction a as [|c a IH]; [done|]. cbn [no_comma split].
  intros H. apply andb_true_iff in H as [Hc Ha].
  apply negb_true_iff in Hc. rewrite Hc, (IH Ha). done.
Qed.

Lemma split_field a rest :
  no_comma a = true -> split "," (a ++ "," ++ rest) = a :: split "," rest.
Proof.
  induction a as [|c a IH]; intros Ha.
  - done.
  - cbn [no_comma] in Ha. apply andb_true_iff in Ha as [Hc Ha].
    apply negb_true_iff in Hc. rewrite append_cons. cbn [split]. by rewrite Hc, (IH Ha).
Qed.

Lemma split_item latitude longitude now :
  split "," (item_of latitude longitude now)
  = [number_to_string latitude; number_to_string longitude; number_to_string (of_Z now)].
Proof.
  unfold item_of, join_values, join. cbn [map ToString String.concat].
  rewrite !split_field, split_no_comma; try done; apply number_to_string_no_comma.
Qed.

Lemma item_not_empty latitude longitude now : item_of latitude longitude now <> "".
Proof.
  unfold item_of, join_values, join. cbn [map ToString String.concat].
  destruct (number_to_string latitude); [|done]. by rewrite append_nil_l.
Qed.

(** *** Integers are written in full up to 21 digits *)
Lemma digit_nonneg c : 0 <= digit c.
Proof. destruct c as [[] [] [] [] [] [] [] []]; vm_compute; discriminate. Qed.

Lemma value_from_nonneg s : forall acc, 0 <= acc -> 0 <= value_from acc s.
Proof.
  induction s as [|c s IH]; intros acc Hacc; [done|].
  cbn [value_from]. apply IH. pose proof (digit_nonneg c). lia.
Qed.

Lemma to_uint_head p :
  match Pos.to_uint p with
  | Decimal.Nil | Decimal.D0 _ => False
  | _ => True
  end.
Proof.
  pose proof (DecimalPos.Unsigned.to_uint_nonnil p) as Hnil.
  pose proof (DecimalPos.Unsigned.to_uint_nonzero p) as Hzero.
  pose proof (DecimalPos.Unsigned.to_of (Pos.to_uint p)) as Hnorm.
  rewrite DecimalPos.Unsigned.of_to in Hnorm. cbn [N.to_uint] in Hnorm.
  assert (Decimal.nzhead (Pos.to_uint p) <> Decimal.Nil) as Hnz.
  { intros H. apply DecimalFacts.unorm_0 in H. congruence. }
  rewrite (DecimalFacts.unorm_nzhead _ Hnz) in Hnorm.
  destruct (Pos.to_uint p) as [|u|u|u|u|u|u|u|u|u|u] eqn:Hu; try done.
  exfalso. exact (DecimalFacts.nzhead_nonzero _ _ (eq_sym Hnorm)).
Qed.

Lemma digits_length_bound m :
  0 < m -> m < 10 ^ 21 -> (String.length (digits_of_positive m) <= 21)%nat.
Proof.
  intros Hm Hlt. destruct (digits_of_positive_spec m ltac:(lia)) as (Hd & Hv & Hl).
  unfold digits_of_positive in *.
  destruct (Z.to_N m) as [|p] eqn:Hp; [lia|]. cbn [N.to_uint] in *.
  pose proof (to_uint_head p) as Hhead.
  assert (exists c s, NilZero.string_of_uint (Pos.to_uint p) = String c s /\ 1 <= digit c)
    as (c & s & Hs & Hc).
  { destruct (Pos.to_uint p); try done; eexists _, _; (split; [reflexivity|]);
      vm_compute; discriminate. }
  rewrite Hs in *. cbn [value_from String.length] in *.
  rewrite value_from_shift in Hv.
  pose proof (value_from_nonneg s 0 ltac:(lia)) as Hnn.
  assert (10 ^ Z.of_nat (String.length s) < 10 ^ 21) as Hpow by nia.
  apply Z.pow_lt_mono_r_iff in Hpow; lia.
Qed.

Lemma Number_layout_integer ds n :
  all_digits ds = true -> (1 <= String.length ds)%nat ->
  Z.of_nat (String.length ds) <= n -> n <= 21 ->
  Number (layout ds n)
  = Finite (value_from 0 ds * 10 ^ (n - Z.of_nat (String.length ds))) 0.
Proof.
  intros Hd Hl Hkn Hn. unfold layout.
  assert ((Z.of_nat (String.length ds) <=? n) && (n <=? 21) = true) as ->.
  { apply andb_true_iff. split; by apply Z.leb_le. }
  rewrite <- (append_nil_r (ds ++ zeros _)).
  rewrite Number_decimal; try done.
  - rewrite read_decimal_integer; try done.
    + rewrite read_exponent_nil, value_from_app, value_from_zeros.
      rewrite Z2Nat.id by lia. done.
    + by rewrite all_digits_app, Hd, all_digits_zeros.
    + rewrite length_append. lia.
  - by rewrite all_digits_app, Hd, all_digits_zeros.
  - rewrite length_append. lia.
Qed.

(** A time stamp comes back as it was written. *)
Lemma Number_of_timestamp t :
  0 <= t < 10 ^ 21 -> Number (number_to_string (of_Z t)) = of_Z t.
Proof.
  intros [Ht0 Ht]. unfold of_Z, number_to_string.
  destruct (t =? 0) eqn:H0; [apply Z.eqb_eq in H0 as ->; reflexivity|].
  apply Z.eqb_neq in H0.
  assert ((t <? 0) = false) as -> by (apply Z.ltb_ge; lia).
  destruct (mantissa_digits t ltac:(lia)) as (ds & z & Hdz & Hd & Hl & Hv & HD).
  pose proof (digits_length_bound t ltac:(lia) Ht) as Hlen.
  rewrite HD, length_append, length_zeros in Hlen.
  unfold positive_to_string. rewrite Hdz, rev_string_involutive.
  change (Number (layout ds (0 + Z.of_nat z + Z.of_nat (String.length ds))) = Finite t 0).
  rewrite Number_layout_integer; try done; try lia.
  f_equal. rewrite Hv. f_equal. f_equal. lia.
Qed.

(** *** The cache gives back what was stored *)
Local Open Scope list_scope.

Lemma cached_item maximumAge w latitude longitude t :
  stored w = Some (item_of latitude longitude t) ->
  0 <= t < 10 ^ 21 ->
  le (sub (of_Z (clock w)) (of_Z t)) maximumAge = true ->
  cached maximumAge w =
    VObject [("latitude", VNum (Number (number_to_string latitude)));
             ("longitude", VNum (Number (number_to_string longitude)))].
Proof.
  intros Hs Ht Hle.
  rewrite (cached_record _ _ _ Hs (item_not_empty _ _ _)).
  unfold age_of, timestamp_of, position_of. rewrite split_item.
  unfold Number_at. cbn [lookup list_lookup].
  by rewrite (Number_of_timestamp t Ht), Hle.
Qed.

Lemma deliver_numeric_storage c r latitude longitude w :
  truthy (reply_err r) = false -> numeric (reply_data r) latitude longitude ->
  localStorage (deliver c r w)
  = <["_GeoLocData" := item_of latitude longitude (at_time r)]> (localStorage w).
Proof.
  intros He Hd. rewrite deliver_unfold. destruct c as [q t | id].
  - by rewrite (callback_numeric _ _ _ _ _ _ _ He Hd).
  - by rewrite (parallel_callback_numeric _ _ _ _ _ _ He Hd).
Qed.

(** X14: the cache gives back what was stored.  When the record is the one
    written for a position with the numbers [latitude] and [longitude] at a
    time [t] (a time of the clock, under 10^21), and the age [now - t] is at
    most the maximum age, the read returns a position whose latitude and
    longitude are those numbers again. *)
Theorem cache_round_trip maximumAge w latitude longitude t :
  stored w = Some (item_of latitude longitude t) ->
  0 <= t < 10 ^ 21 ->
  le (sub (of_Z (clock w)) (of_Z t)) maximumAge = true ->
  exists latitude' longitude',
    _getPositionFromLocalStorage maximumAge w =
      (w, Normal (VObject [("latitude", VNum latitude'); ("longitude", VNum longitude')])) /\
    same_number latitude' latitude /\ same_number longitude' longitude.
Proof.
  intros Hs Ht Hle. eexists _, _. split; [|split; apply Number_round_trip].
  rewrite read_cached. by rewrite (cached_item _ _ _ _ _ Hs Ht Hle).
Qed.

Lemma cache_round_trip_witness :
  exists latitude' longitude',
    _getPositionFromLocalStorage (of_Z 86400000) world_cached =
      (world_cached,
       Normal (VObject [("latitude", VNum latitude'); ("longitude", VNum longitude')])) /\
    same_number latitude' (Finite 5575 (-2)) /\ same_number longitude' (Finite (-12) 1).
Proof.
  apply (cache_round_trip (of_Z 86400000) world_cached (Finite 5575 (-2)) (Finite (-12) 1)
           1383000000000).
  - reflexivity.
  - split; [discriminate | reflexivity].
  - reflexivity.
Defined.

(** X15: what one call stores, the next call finds.  When a provider has
    answered a call of either strategy with numbers for latitude and
    longitude, a later call of either strategy, on any instance, made while
    the record is still there and no older than the maximum age in force,
    invokes its completion callback with a position of the same latitude and
    longitude, and calls no provider. *)
Theorem success_then_cache_hit c r latitude longitude w w2 this a :
  truthy (reply_err r) = false ->
  numeric (reply_data r) latitude longitude ->
  0 <= at_time r < 10 ^ 21 ->
  localStorage w2 = localStorage (deliver c r w) ->
  le (sub (of_Z (clock w2)) (of_Z (at_time r))) (max_age_of this a) = true ->
  exists latitude' longitude',
    same_number latitude' latitude /\ same_number longitude' longitude /\
    getPosition this a w2 =
      (after w2 [Completion VNull (VObject [("latitude", VNum latitude');
                                            ("longitude", VNum longitude')])],
       Normal tt) /\
    getPositionParallel this a w2 = getPosition this a w2.
Proof.
  intros He Hd Ht Hl Hle.
  assert (stored w2 = Some (item_of latitude longitude (at_time r))) as Hs.
  { unfold stored. rewrite Hl, (deliver_numeric_storage _ _ _ _ _ He Hd).
    apply lookup_insert_eq. }
  pose proof (cached_item _ _ _ _ _ Hs Ht Hle) as Hc.
  eexists _, _. split; [apply Number_round_trip|]. split; [apply Number_round_trip|].
  rewrite getPosition_hit, getPositionParallel_hit; rewrite Hc; done.
Qed.

Lemma success_then_cache_hit_witness :
  exists latitude' longitude',
    same_number latitude' (Finite 5575 (-2)) /\ same_number longitude' (Finite 3762 (-2)) /\
    getPosition GeoLoc_default TheCallback
                (deliver (SequentialCallback 2%positive (of_Z 10000))
                         (Reply 1383000000000 VNull Moscow) world_queue) =
      (after (deliver (SequentialCallback 2%positive (of_Z 10000))
                      (Reply 1383000000000 VNull Moscow) world_queue)
             [Completion VNull (VObject [("latitude", VNum latitude');
                                         ("longitude", VNum longitude')])],
       Normal tt) /\
    getPositionParallel GeoLoc_default TheCallback
                (deliver (SequentialCallback 2%positive (of_Z 10000))
                         (Reply 1383000000000 VNull Moscow) world_queue)
    = getPosition GeoLoc_default TheCallback
                (deliver (SequentialCallback 2%positive (of_Z 10000))
                         (Reply 1383000000000 VNull Moscow) world_queue).
Proof.
  apply (success_then_cache_hit (SequentialCallback 2%positive (of_Z 10000))
           (Reply 1383000000000 VNull Moscow) (Finite 5575 (-2)) (Finite 3762 (-2))
           world_queue _ GeoLoc_default TheCallback).
  - reflexivity.
  - split; reflexivity.
  - split; [discriminate | reflexivity].
  - reflexivity.
  - reflexivity.
Defined.

(** ** What is left of the two strategies *)

(** *** The sequential strategy without providers *)

(** X16: a sequential call that misses the cache on an instance whose list of
    providers is empty throws a TypeError out of the call, whatever the
    options, [options.providers] included: the completion callback is not
    invoked, nothing is called, nothing is stored, and the only thing done is
    the copy of the list, an empty queue. *)
Theorem sequential_call_without_providers this a w :
  cached (max_age_of this a) w = VNull ->
  heap w !!! providers this = [] ->
  getPosition this a w =
    (World (<[fresh (dom (heap w)) := []]> (heap w)) (localStorage w) (clock w)
           (defaultProviders w) (uidCounter w) (requests w) (trace w),
     Throw (VError "TypeError" "Cannot read property getPosition")).
Proof.
  intros Hc Hq. rewrite getPosition_unfold. fold (max_age_of this a).
  rewrite read_cached, Hc. cbn [truthy]. by rewrite (queue_start_empty _ _ _ Hq).
Qed.

Lemma sequential_call_without_providers_witness :
  getPosition GeoLoc_default (TheOptions (Options None None (Some 2%positive))) world_no_list
  = (World (<[fresh (dom (heap world_no_list)) := []]> (heap world_no_list))
           (localStorage world_no_list) (clock world_no_list)
           (defaultProviders world_no_list) (uidCounter world_no_list)
           (requests world_no_list) (trace world_no_list),
     Throw (VError "TypeError" "Cannot read property getPosition")).
Proof.
  apply (sequential_call_without_providers GeoLoc_default
           (TheOptions (Options None None (Some 2%positive))) world_no_list);
    reflexivity.
Defined.

(** *** Arrays *)

Lemma deliver_parallel_heap id r w :
  heap (deliver (ParallelCallback id) r w) = heap w.
Proof.
  destruct (reply_cases r) as [Hf | [(He & la & lo & Hd) | Hr]].
  - by rewrite (deliver_parallel_failed id r w Hf).
  - rewrite deliver_unfold. by rewrite (parallel_callback_numeric _ _ _ _ _ _ He Hd).
  - destruct (incorrect_data_unreadable r (at_clock w r) Hr) as [He _].
    rewrite deliver_unfold.
    rewrite (parallel_callback_throws _ _ _ (VError "TypeError" "Cannot read property latitude"));
      [done | done |].
    intros w1. by destruct (incorrect_data_unreadable r w1 Hr).
Qed.

Lemma run_parallel_heap replies : forall w,
  heap (run (parallel_events replies) w) = heap w.
Proof.
  induction replies as [|[id r] replies IH]; intros w; [done|].
  unfold run, parallel_events in *. cbn [map foldl fst snd].
  by rewrite IH, deliver_parallel_heap.
Qed.

Lemma start_parallel_heap this a w :
  heap (start (getPositionParallel this a) w) = heap w.
Proof.
  unfold start. destruct (cached_null_or_truthy (max_age_of this a) w) as [Hc | Hc].
  - by rewrite (getPositionParallel_miss _ _ _ Hc).
  - by rewrite (getPositionParallel_hit _ _ _ Hc).
Qed.

(** X17: the lists of providers are read, never written.  Whatever the
    providers answer to the callbacks of a call, an array that was there
    before the call (the instance's list, the default list, the list of the
    options) holds afterwards what it held: the sequential strategy shifts
    its own copy only, and the parallel strategy makes no array and changes
    none. *)
Theorem arrays_are_never_changed this a w l replies answers :
  is_Some (heap w !! l) ->
  heap (run (map (fun r => (SequentialCallback (fresh (dom (heap w))) (timeout_of this a), r))
                 replies)
            (start (getPosition this a) w)) !! l = heap w !! l /\
  heap (run (parallel_events answers) (start (getPositionParallel this a) w)) = heap w.
Proof.
  intros Hl. split.
  - by apply getPosition_leaves_arrays.
  - by rewrite run_parallel_heap, start_parallel_heap.
Qed.

Lemma arrays_are_never_changed_witness :
  heap (run (map (fun r => (SequentialCallback (fresh (dom (heap world_two)))
                                               (timeout_of GeoLoc_default TheCallback), r))
                 [Reply 2000 (VStr "denied") VUndefined; Reply 3000 VNull Moscow])
            (start (getPosition GeoLoc_default TheCallback) world_two)) !! 1%positive
    = heap world_two !! 1%positive /\
  heap (run (parallel_events both_fail)
            (start (getPositionParallel GeoLoc_default TheCallback) world_two))
    = heap world_two.
Proof.
  apply (arrays_are_never_changed GeoLoc_default TheCallback world_two 1%positive
           [Reply 2000 (VStr "denied") VUndefined; Reply 3000 VNull Moscow] both_fail).
  by eexists.
Defined.

(** *** The providers of the options, edition by edition *)

(** X18: in the earlier edition [GeoLoc.getPosition(options, cb)] hands the
    options to the constructor, so a call that names providers and misses the
    cache calls the first of them.  In the later edition the same call hands
    them to the method, which does not use them: it calls the first of the
    default providers. *)
Theorem static_getPosition_providers timeout age l w p rest p' rest' :
  let a := TheOptions (Options timeout age (Some l)) in
  let t := number_or timeout (of_Z 10000) in
  let q := fresh (dom (heap w)) in
  cached (number_or age (of_Z 86400000)) w = VNull ->
  heap w !!! l = p :: rest ->
  heap w !!! defaultProviders w = p' :: rest' ->
  trace (start (GeoLocJs0.static_getPosition a) w)
    = trace w ++ [ProviderGetPosition p (SequentialCallback q t) t] /\
  trace (start (static_getPosition a) w)
    = trace w ++ [ProviderGetPosition p' (SequentialCallback q t) t].
Proof.
  intros a t q Hc Hl Hd. split.
  - unfold start, GeoLocJs0.static_getPosition.
    rewrite (bind_normal _ _ w w _ eq_refl). rewrite getPosition0_unfold.
    set (this := Build_GeoLoc _ _ _).
    pose proof (getPosition_miss this TheCallback w p rest) as H.
    unfold start in H. rewrite H; [done | exact Hc | exact Hl].
  - unfold start, static_getPosition.
    rewrite (bind_normal _ _ w w _ eq_refl).
    set (this := Build_GeoLoc _ _ _).
    pose proof (getPosition_miss this a w p' rest') as H.
    unfold start in H. rewrite H; [done | exact Hc | exact Hd].
Qed.

Lemma static_getPosition_providers_witness :
  trace (start (GeoLocJs0.static_getPosition (TheOptions (Options None None (Some 2%positive))))
               world_override)
    = [ProviderGetPosition "ip" (SequentialCallback 3%positive (of_Z 10000)) (of_Z 10000)] /\
  trace (start (static_getPosition (TheOptions (Options None None (Some 2%positive))))
               world_override)
    = [ProviderGetPosition "html5geolocation" (SequentialCallback 3%positive (of_Z 10000))
                           (of_Z 10000)].
Proof.
  apply (static_getPosition_providers None None 2%positive world_override
           "ip" [] "html5geolocation" []); reflexivity.
Defined.
